(** * clamshell: the Go board of [core/board/board.go]

    A shallow embedding of the board package (grid store, neighbour
    topology, group/liberty analyzer, placement and ko engine) and the
    properties of its specification.

    Conventions of the embedding:
    - Go's [int] and [int64] are 64-bit two's complement integers, carried
      by [Z]; the only arithmetic of the file ([getNeighbors]) wraps.
    - A slice is a [list]; indexing outside it panics.
    - A call either returns, panics, or (model only) runs out of the fuel
      that bounds the analyzer's [for] loop: type [outcome].
    - [*point.Point] values are immutable and only compared through
      dereference, so pointers are modelled by the values they point to. *)

From stdpp Require Import base option list gmap sets numbers.
From Stdlib Require Import ZArith Lia Sorted.

Local Open Scope Z_scope.

(** ** Outcomes of a call *)

Inductive panic : Type :=
| IndexOutOfRange   (* runtime error: index out of range *)
| MakeSliceLen      (* runtime error: makeslice: len out of range *)
| NotAPoint.        (* panic("e.Value was not of type point.Point") *)

Inductive outcome (A : Type) : Type :=
| Done (a : A)
| Panic (why : panic)
| OutOfFuel.
Arguments Done {A} a.
Arguments Panic {A} why.
Arguments OutOfFuel {A}.

Global Instance outcome_ret : MRet outcome := fun A a => Done a.
Global Instance outcome_bind : MBind outcome := fun A B f o =>
  match o with
  | Done a => f a
  | Panic w => Panic w
  | OutOfFuel => OutOfFuel
  end.

(** [l[i]] on a slice. *)
Definition index {A : Type} (l : list A) (i : Z) : outcome A :=
  if decide (0 <= i) then
    match l !! Z.to_nat i with
    | Some a => Done a
    | None => Panic IndexOutOfRange
    end
  else Panic IndexOutOfRange.

(** ** The packages [color], [point] and [move] *)

Module color.
(** Modelled from the spec: the package [core/color] is not part of the
    sources at hand; the specification gives [Color] as the enumeration
    {Empty, Black, White}, [Empty] being the zero value that
    [make([]color.Color, n)] fills a row with. *)
Inductive Color : Type := Empty | Black | White.

Global Instance Color_eq_dec : EqDecision Color.
Proof. solve_decision. Defined.
End color.

Module point.
(** Modelled from the spec: the package [core/point] is not part of the
    sources at hand; a [Point] is an immutable pair of [int64]
    coordinates with the constructor [New] and the getters [X], [Y]. *)
Record Point : Type := New { X : Z; Y : Z }.

Global Instance Point_eq_dec : EqDecision Point.
Proof. solve_decision. Defined.

Global Instance Point_countable : Countable Point.
Proof.
  refine (inj_countable' (fun p => (X p, Y p)) (fun xy => New xy.1 xy.2) _).
  by intros [].
Defined.
End point.

Module move.
(** Modelled from the spec: the package [core/move] is not part of the
    sources at hand; a [Move] is a (Color, Point) pair built by
    [NewMove]. *)
Record Move : Type := NewMove { Color : color.Color; Point : point.Point }.
End move.

Abbreviation Color := color.Color.
Abbreviation Point := point.Point.
Abbreviation Move := move.Move.

(** Two's complement wrap-around of [int64] arithmetic. *)
Definition max_int : Z := 2 ^ 63 - 1.
Definition wrap64 (z : Z) : Z := (z + 2 ^ 63) `mod` 2 ^ 64 - 2 ^ 63.

(** The values of an [int64]. *)
Definition is_int64 (z : Z) : Prop := - 2 ^ 63 <= z < 2 ^ 63.

(** ** The board *)

Record Board : Type := mkBoard {
  board : list (list Color);
  ko : option Point
}.

(** [make([]T, n)] *)
Definition make {A : Type} (zero : A) (n : Z) : outcome (list A) :=
  if decide (0 <= n <= max_int) then Done (replicate (Z.to_nat n) zero)
  else Panic MakeSliceLen.

(** The loop [for i := 0; i < size; i++ { board.board[i] = make(..., size) }]. *)
Fixpoint NewBoard_rows (size : Z) (idx : list nat) (rows : list (list Color))
  : outcome (list (list Color)) :=
  match idx with
  | [] => Done rows
  | i :: idx' =>
      row ← make color.Empty size;
      _ ← index rows (Z.of_nat i);
      NewBoard_rows size idx' (<[i := row]> rows)
  end.

Definition NewBoard (size : Z) : outcome Board :=
  rows ← make [] size;
  rows' ← NewBoard_rows size (seq 0 (Z.to_nat size)) rows;
  Done (mkBoard rows' None).

(** [inBounds]: [len(b.board[0])] is read first, [&&] has no effect to
    short-circuit. *)
Definition inBounds (b : Board) (pt : Point) : outcome bool :=
  row0 ← index (board b) 0;
  let x := point.X pt in
  let y := point.Y pt in
  Done ((x <? Z.of_nat (length row0)) && (y <? Z.of_nat (length (board b)))
        && (x >=? 0) && (y >=? 0)).

Definition colorAt (b : Board) (pt : Point) : outcome Color :=
  row ← index (board b) (point.Y pt);
  index row (point.X pt).

Definition setColor (b : Board) (m : Move) : outcome Board :=
  let x := point.X (move.Point m) in
  let y := point.Y (move.Point m) in
  row ← index (board b) y;
  _ ← index row x;
  Done (mkBoard (<[Z.to_nat y := <[Z.to_nat x := move.Color m]> row]> (board b))
                (ko b)).

Definition getNeighbors (pt : Point) : list Point :=
  [ point.New (wrap64 (point.X pt + 1)) (point.Y pt);
    point.New (wrap64 (point.X pt - 1)) (point.Y pt);
    point.New (point.X pt) (wrap64 (point.Y pt + 1));
    point.New (point.X pt) (wrap64 (point.Y pt - 1)) ].

(** ** The group/liberty analyzer *)

(** What a [container/list] element can hold: [Value interface{}].  The
    code only ever stores [*point.Point]; [VOther] stands for every other
    dynamic type, the one the type assertion of the loop rejects. *)
Inductive Value : Type :=
| VPoint (p : Point)
| VOther.

(** The loop [for queue.Len() > 0 { ... }] of [capturedStones]: [None] is
    the early [return nil], [Some expanded] the exit with an empty queue.
    [expanded] is the [map[point.Point]bool]; a missing key reads [false]. *)
Fixpoint capturedStones_loop (fuel : nat) (b : Board) (c : Color)
    (queue : list Value) (expanded : gmap Point bool)
  : outcome (option (gmap Point bool)) :=
  match fuel with
  | O => OutOfFuel
  | S fuel' =>
      match queue with
      | [] => Done (Some expanded)
      | e :: queue' =>
          match e with
          | VOther => Panic NotAPoint
          | VPoint pt1 =>
              ib ← inBounds b pt1;
              if negb ib then capturedStones_loop fuel' b c queue' expanded
              else
                c1 ← colorAt b pt1;
                if decide (c1 = color.Empty) then Done None
                else
                  c2 ← colorAt b pt1;
                  if bool_decide (c2 = c) && negb (default false (expanded !! pt1))
                  then capturedStones_loop fuel' b c
                         (queue' ++ (VPoint <$> getNeighbors pt1))
                         (<[pt1 := true]> expanded)
                  else capturedStones_loop fuel' b c queue' expanded
          end
      end
  end.

(** Iterations granted to the analyzer's loop: every iteration dequeues one
    element, and four are enqueued for each point of the grid at most. *)
Definition loop_fuel (b : Board) : nat :=
  S (S (4 * (length (board b) * length (hd [] (board b)))))%nat.

(** The slice built from the keys of [expanded].  Go leaves the order of a
    [range] over a map unspecified; the model lists the keys in the order
    of [map_to_list], and the theorems below do not depend on it. *)
Definition stoneGroup (expanded : gmap Point bool) : list Point :=
  (fun key => point.New (point.X key) (point.Y key)) <$> (map_to_list expanded).*1.

Definition capturedStones (b : Board) (pt : Point) : outcome (list Point) :=
  c ← colorAt b pt;
  r ← capturedStones_loop (loop_fuel b) b c [VPoint pt] ∅;
  match r with
  | None => Done []
  | Some expanded => Done (stoneGroup expanded)
  end.

(** ** The placement and ko engine *)

(** [findCapturedGroups]; the second component is ghost state, the log of
    the points [capturedStones] was called on, in call order. *)
Fixpoint findCapturedGroups_loop (b : Board) (points : list Point)
    (captured : list Point) (calls : list Point)
  : outcome (list Point * list Point) :=
  match points with
  | [] => Done (captured, calls)
  | p :: points' =>
      ib ← inBounds b p;
      if (ib : bool) then
        stones ← capturedStones b p;
        findCapturedGroups_loop b points' (captured ++ stones) (calls ++ [p : Point])
      else findCapturedGroups_loop b points' captured calls
  end.

Definition findCapturedGroups_traced (b : Board) (m : Move)
  : outcome (list Point * list Point) :=
  findCapturedGroups_loop b (getNeighbors (move.Point m)) [] [].

Definition findCapturedGroups (b : Board) (m : Move) : outcome (list Point) :=
  r ← findCapturedGroups_traced b m; Done r.1.

Fixpoint removeCapturedStones (b : Board) (capturedStones : list Point)
  : outcome Board :=
  match capturedStones with
  | [] => Done b
  | p :: rest =>
      b' ← setColor b (move.NewMove color.Empty p);
      removeCapturedStones b' rest
  end.

(** The four [fmt.Errorf] values of [PlaceStone], with their arguments. *)
Inductive error : Type :=
| ErrOutOfBounds (pt : Point) (cols rows : nat)
| ErrOccupied (pt : Point)
| ErrSuicidal (pt : Point)
| ErrIllegalKo (pt : Point).

Definition set_ko (b : Board) (k : option Point) : Board :=
  mkBoard (board b) k.

(** [PlaceStone] returns the board it leaves behind, the captured stones
    and the error ([None] is Go's [nil] error). *)
Definition PlaceStone (b : Board) (m : Move)
  : outcome (Board * list Point * option error) :=
  let ko0 := ko b in
  let b := set_ko b None in
  ib ← inBounds b (move.Point m);
  if negb ib then
    row0 ← index (board b) 0;
    Done (b, [], Some (ErrOutOfBounds (move.Point m) (length row0) (length (board b))))
  else
    c ← colorAt b (move.Point m);
    if decide (c ≠ color.Empty) then
      Done (b, [], Some (ErrOccupied (move.Point m)))
    else
      b ← setColor b m;
      capturedStones0 ← findCapturedGroups b m;
      suicidal ← (if decide (length capturedStones0 = 0%nat) then
                    own ← capturedStones b (move.Point m);
                    Done (negb (bool_decide (length own = 0%nat)))
                  else Done false);
      if (suicidal : bool) then
        b ← setColor b (move.NewMove color.Empty (move.Point m));
        Done (b, [], Some (ErrSuicidal (move.Point m)))
      else
        let commit (b : Board) :=
          b ← removeCapturedStones b capturedStones0;
          Done (b, capturedStones0, None) in
        match capturedStones0 with
        | [stone] =>
            let b := set_ko b (Some (move.Point m)) in
            if decide (ko0 = Some stone) then
              b ← setColor b (move.NewMove color.Empty (move.Point m));
              Done (b, [], Some (ErrIllegalKo (move.Point m)))
            else commit b
        | _ => commit b
        end.

(** ** The grid seen as a function *)

Definition height (b : Board) : nat := length (board b).
Definition width (b : Board) : nat := length (hd [] (board b)).

(** A board as [NewBoard] makes them: a square of side at least 1. *)
Definition wf (b : Board) : Prop :=
  (1 <= height b)%nat /\ Z.of_nat (height b) <= max_int /\
  Forall (fun row => length row = height b) (board b).

Definition inb (b : Board) (p : Point) : bool :=
  bool_decide (0 <= point.X p < Z.of_nat (height b) /\
               0 <= point.Y p < Z.of_nat (height b)).

Definition cell (b : Board) (p : Point) : Color :=
  match colorAt b p with
  | Done c => c
  | _ => color.Empty
  end.

(** The specification's board invariant: square grid, ko unset or inside. *)
Definition ko_ok (b : Board) : Prop :=
  match ko b with
  | None => True
  | Some p => inb b p = true
  end.

Definition board_inv (size : nat) (b : Board) : Prop :=
  wf b /\ height b = size /\ ko_ok b.

(** Orthogonal adjacency, the topology of the specification. *)
Definition adjacent (p q : Point) : Prop :=
  Z.abs (point.X p - point.X q) + Z.abs (point.Y p - point.Y q) = 1.

(** The group of [pt]: the stones of its colour linked to it by a chain of
    adjacent stones of that colour. *)
Inductive group (b : Board) (pt : Point) : Point -> Prop :=
| group_start : group b pt pt
| group_step q r :
    group b pt q -> adjacent q r -> inb b r = true ->
    cell b r = cell b pt -> group b pt r.

(** A liberty of the group of [pt]: an Empty point of the grid next to one
    of its stones. *)
Definition liberty (b : Board) (pt r : Point) : Prop :=
  exists q, group b pt q /\ adjacent q r /\ inb b r = true /\
            cell b r = color.Empty.

Definition has_liberty (b : Board) (pt : Point) : Prop :=
  exists r, liberty b pt r.

(** Invariant of the analyzer's loop, started at [pt] on board [b].

    A neighbour the traversal is done with: off the grid, an opponent
    stone, or a stone of the group already expanded. *)
Definition settled (b : Board) (pt : Point) (expanded : gmap Point bool)
    (n : Point) : Prop :=
  inb b n = false \/
  (cell b n <> color.Empty /\
   (cell b n <> cell b pt \/ expanded !! n = Some true)).

Record loop_inv (b : Board) (pt : Point) (queue : list Value)
    (expanded : gmap Point bool) : Prop := {
  inv_queue : forall v, v ∈ queue ->
    exists p, v = VPoint p /\
      (p = pt \/ exists q, expanded !! q = Some true /\ p ∈ getNeighbors q);
  inv_expanded : forall q v, expanded !! q = Some v ->
    v = true /\ inb b q = true /\ group b pt q;
  inv_frontier : forall q n, expanded !! q = Some true -> n ∈ getNeighbors q ->
    VPoint n ∈ queue \/ settled b pt expanded n;
  inv_start : VPoint pt ∈ queue \/ expanded !! pt = Some true
}.

(** All the points of the grid. *)
Definition all_points (b : Board) : list Point :=
  (fun xy => point.New (Z.of_nat xy.1) (Z.of_nat xy.2))
    <$> list_prod (seq 0 (height b)) (seq 0 (height b)).

(** The points a run of [PlaceStone] passes to [capturedStones], in call
    order, with the board they are analysed on (the grid after the
    tentative placement): the trace of the calls on lines 50-51. *)
Definition PlaceStone_analyzed (b : Board) (m : Move)
  : outcome (Board * list Point) :=
  let b := set_ko b None in
  ib ← inBounds b (move.Point m);
  if negb ib then Done (b, [])
  else
    c ← colorAt b (move.Point m);
    if decide (c ≠ color.Empty) then Done (b, [])
    else
      b ← setColor b m;
      r ← findCapturedGroups_traced b m;
      if decide (length r.1 = 0%nat) then
        _ ← capturedStones b (move.Point m);
        Done (b, r.2 ++ [move.Point m])
      else Done (b, r.2).

(** The values the calls return where they return (read off the code's
    own functions): the captured stones of one analysis, the board after
    the tentative placement of line 49, and the captures of line 50. *)
Definition analysis (b : Board) (p : Point) : list Point :=
  match capturedStones b p with
  | Done l => l
  | _ => []
  end.

Definition tentative (b : Board) (m : Move) : Board :=
  match setColor (set_ko b None) m with
  | Done b' => b'
  | _ => set_ko b None
  end.

Definition captures (b : Board) (m : Move) : list Point :=
  match findCapturedGroups (tentative b m) m with
  | Done l => l
  | _ => []
  end.

(** The ko point and the board a placement that passes every check
    leaves: lines 55-56 and 63. *)
Definition new_ko (b : Board) (m : Move) : option Point :=
  match captures b m with
  | [_] => Some (move.Point m)
  | _ => None
  end.

Definition committed (b : Board) (m : Move) : Board :=
  match removeCapturedStones (set_ko (tentative b m) (new_ko b m))
                             (captures b m) with
  | Done b' => b'
  | _ => set_ko b None
  end.

(** A sequence of [PlaceStone] calls on one board; rejected moves are
    calls like the others. *)
Fixpoint play (b : Board) (ms : list Move) : outcome Board :=
  match ms with
  | [] => Done b
  | m :: ms' => r ← PlaceStone b m; play r.1.1 ms'
  end.

(** ** Positions used in the examples

    Rows are listed from [y = 0]; [B], [W] and [o] abbreviate the three
    colours. *)

Definition stone (c : Color) (x y : Z) : Move :=
  move.NewMove c (point.New x y).

Definition empty3 : Board :=
  mkBoard (replicate 3 (replicate 3 color.Empty)) None.

Section positions.
Let B := color.Black.
Let W := color.White.
Let o := color.Empty.

(** A white stone at (1,1) with black stones on three sides, and the
    same position once the fourth black stone stands at (1,2). *)
Definition atari3 : Board :=
  mkBoard [ [o; B; o];
            [B; W; B];
            [o; o; o] ] None.

Definition surrounded3 : Board :=
  mkBoard [ [o; B; o];
            [B; W; B];
            [o; B; o] ] None.

(** Black to play at (1,0): the stone joins the black stone at (0,0) in
    a group of two without a liberty, and no white stone is captured. *)
Definition crowded3 : Board :=
  mkBoard [ [B; o; W];
            [W; W; o];
            [o; B; B] ] None.

Definition crowded3_moves : list Move :=
  [ stone B 0 0; stone W 2 0; stone B 2 2;
    stone W 0 1; stone B 1 2; stone W 1 1 ].

(** A white group of three, bent around the corner (0,0), that Black
    captures by playing there. *)
Definition corner3 : Board :=
  mkBoard [ [o; W; B];
            [W; W; B];
            [B; B; o] ] None.

(** A ko: White captures at (1,1) the black stone at (2,1), after which
    Black could take back at (2,1). *)
Definition ko4_before : Board :=
  mkBoard [ [o; B; W; o];
            [B; o; B; W];
            [o; B; W; o];
            [o; o; o; o] ] None.

Definition ko4 : Board :=
  mkBoard [ [o; B; W; o];
            [B; W; o; W];
            [o; B; W; o];
            [o; o; o; o] ] (Some (point.New 1 1)).

(** A corner point between two white stones that share the liberty
    (1,1). *)
Definition eye2 : Board :=
  mkBoard [ [o; W];
            [W; o] ] None.
End positions.

(** ** The snapshot [GetFullBoardState]

    The inner loop, for the row [i]: [js] are the column indices still to
    visit.  The cell is read twice, once by the test and once for the
    move appended. *)
Fixpoint GetFullBoardState_cols (b : Board) (i : nat) (js : list nat)
    (moves : list Move) : outcome (list Move) :=
  match js with
  | [] => Done moves
  | j :: js' =>
      row ← index (board b) (Z.of_nat i);
      c ← index row (Z.of_nat j);
      if decide (c ≠ color.Empty) then
        row' ← index (board b) (Z.of_nat i);
        c' ← index row' (Z.of_nat j);
        GetFullBoardState_cols b i js'
          (moves ++ [move.NewMove c' (point.New (Z.of_nat j) (Z.of_nat i))])
      else GetFullBoardState_cols b i js' moves
  end.

(** The outer loop; the bound [len(b.board[0])] of the inner loop is read
    on entering it, that is only for a row that exists. *)
Fixpoint GetFullBoardState_rows (b : Board) (idx : list nat)
    (moves : list Move) : outcome (list Move) :=
  match idx with
  | [] => Done moves
  | i :: idx' =>
      row0 ← index (board b) 0;
      moves' ← GetFullBoardState_cols b i (seq 0 (length row0)) moves;
      GetFullBoardState_rows b idx' moves'
  end.

Definition GetFullBoardState (b : Board) : outcome (list Move) :=
  GetFullBoardState_rows b (seq 0 (length (board b))) [].

(** The points of the grid in row-major order: top row first, each row
    from left to right. *)
Definition row_major (b : Board) : list Point :=
  seq 0 (height b) ≫= fun i =>
    (fun j => point.New (Z.of_nat j) (Z.of_nat i)) <$> seq 0 (height b).

(** [p] comes before [q] in row-major order. *)
Definition row_major_lt (p q : Point) : Prop :=
  point.Y p < point.Y q \/ (point.Y p = point.Y q /\ point.X p < point.X q).

(** The stones of a board, in row-major order. *)
Definition stones (b : Board) : list Move :=
  (fun p => move.NewMove (cell b p) p)
    <$> filter (fun p => cell b p <> color.Empty) (row_major b).

(** No group on the board is without a liberty. *)
Definition alive (b : Board) : Prop :=
  forall p, inb b p = true -> cell b p <> color.Empty -> has_liberty b p.

(** The board a sequence of calls leaves when every call returns. *)
Definition reachable (size : Z) (b : Board) : Prop :=
  exists b0 ms, NewBoard size = Done b0 /\ play b0 ms = Done b.

(** Well-formedness of a board given by its rows. *)
Ltac concrete_wf :=
  unfold wf;
  split_and!; [vm_compute; lia | by vm_compute | vm_compute; repeat constructor].

(** * Properties *)

(** ** Slices and the grid store *)

Lemma bind_Done {A B : Type} (a : A) (f : A -> outcome B) :
  (Done a ≫= f) = f a.
Proof. reflexivity. Qed.

Lemma index_Done {A : Type} (l : list A) (i : Z) (a : A) :
  index l i = Done a <-> 0 <= i /\ l !! Z.to_nat i = Some a.
Proof.
  unfold index. destruct (decide (0 <= i)) as [Hi|Hi].
  - destruct (l !! Z.to_nat i) eqn:E; split; intros H.
    + injection H as ->. auto.
    + destruct H as [_ H]. by injection H as ->.
    + discriminate.
    + destruct H; discriminate.
  - split; [discriminate | lia].
Qed.

Lemma index_in_range {A : Type} (l : list A) (i : Z) :
  0 <= i < Z.of_nat (length l) -> exists a, index l i = Done a /\ l !! Z.to_nat i = Some a.
Proof.
  intros Hi. destruct (lookup_lt_is_Some_2 l (Z.to_nat i)) as [a Ha]; [lia|].
  exists a. split; [|done]. apply index_Done. split; [lia | done].
Qed.

Lemma wf_width (b : Board) : wf b -> width b = height b.
Proof.
  intros (Hh & _ & Hrows). unfold width, height in *.
  destruct (board b) as [|row rows]; simpl in *; [lia|].
  by inversion Hrows.
Qed.

Lemma wf_row (b : Board) (i : nat) (row : list Color) :
  wf b -> board b !! i = Some row -> length row = height b.
Proof.
  intros (_ & _ & Hrows) Hi.
  rewrite Forall_forall in Hrows. apply Hrows.
  apply list_elem_of_In. eapply list_elem_of_lookup_2, Hi.
Qed.

Lemma inb_spec (b : Board) (p : Point) :
  inb b p = true <->
  0 <= point.X p < Z.of_nat (height b) /\ 0 <= point.Y p < Z.of_nat (height b).
Proof. unfold inb. by rewrite bool_decide_eq_true. Qed.

Lemma inBounds_wf (b : Board) (p : Point) :
  wf b -> inBounds b p = Done (inb b p).
Proof.
  intros Hwf. pose proof (wf_width b Hwf) as Hw.
  unfold inBounds, width, height in *.
  destruct Hwf as (Hh & _ & _). unfold height in Hh.
  destruct (board b) as [|row rows] eqn:E; simpl in *; [lia|].
  f_equal. apply eq_true_iff_eq. rewrite inb_spec.
  unfold height. rewrite E. simpl length.
  rewrite !andb_true_iff, !Z.ltb_lt, !Z.geb_le. lia.
Qed.

Lemma colorAt_wf (b : Board) (p : Point) :
  wf b -> inb b p = true -> colorAt b p = Done (cell b p).
Proof.
  intros Hwf Hp. apply inb_spec in Hp as [Hx Hy].
  unfold cell, colorAt.
  destruct (index_in_range (board b) (point.Y p)) as (row & -> & Hrow);
    [done|]. simpl.
  destruct (index_in_range row (point.X p)) as (c & -> & _); [|done].
  by rewrite (wf_row b _ row Hwf Hrow).
Qed.

Lemma cell_lookup (b : Board) (p : Point) (row : list Color) (c : Color) :
  0 <= point.X p -> 0 <= point.Y p ->
  board b !! Z.to_nat (point.Y p) = Some row ->
  row !! Z.to_nat (point.X p) = Some c ->
  cell b p = c.
Proof.
  intros Hx Hy Hrow Hc. unfold cell, colorAt.
  assert (index (board b) (point.Y p) = Done row) as -> by by apply index_Done.
  simpl. by assert (index row (point.X p) = Done c) as -> by by apply index_Done.
Qed.

Lemma cell_wf (b : Board) (p : Point) :
  wf b -> inb b p = true ->
  exists row, board b !! Z.to_nat (point.Y p) = Some row /\
              row !! Z.to_nat (point.X p) = Some (cell b p).
Proof.
  intros Hwf Hp. pose proof (colorAt_wf b p Hwf Hp) as Hc.
  unfold colorAt in Hc.
  destruct (index (board b) (point.Y p)) as [row| |] eqn:E; try discriminate.
  simpl in Hc. apply index_Done in E as [_ E], Hc as [_ Hc]. eauto.
Qed.

Lemma cell_outside (b : Board) (p : Point) :
  wf b -> inb b p = false -> cell b p = color.Empty.
Proof.
  intros Hwf Hp. unfold cell, colorAt.
  destruct (index (board b) (point.Y p)) as [row| |] eqn:E; try done.
  simpl. destruct (index row (point.X p)) as [c| |] eqn:E'; try done.
  apply index_Done in E as [Hy E], E' as [Hx E'].
  pose proof (wf_row b _ row Hwf E) as Hlen.
  apply lookup_lt_Some in E, E'.
  assert (inb b p = true); [|congruence].
  apply inb_spec. unfold height in *. lia.
Qed.

Lemma inb_same_height (b b' : Board) (p : Point) :
  height b' = height b -> inb b' p = inb b p.
Proof. unfold inb. by intros ->. Qed.

(** Two square grids of the same side with the same cells are equal. *)
Lemma grid_ext (b1 b2 : Board) :
  wf b1 -> wf b2 -> height b1 = height b2 ->
  (forall p, inb b1 p = true -> cell b1 p = cell b2 p) ->
  board b1 = board b2.
Proof.
  intros Hwf1 Hwf2 Hh Hcell. apply list_eq. intros i.
  destruct (decide (i < height b1)%nat) as [Hi|Hi].
  - destruct (lookup_lt_is_Some_2 (board b1) i) as [r1 Hr1]; [done|].
    destruct (lookup_lt_is_Some_2 (board b2) i) as [r2 Hr2];
      [unfold height in *; lia|].
    rewrite Hr1, Hr2. f_equal.
    pose proof (wf_row _ _ _ Hwf1 Hr1) as Hl1.
    pose proof (wf_row _ _ _ Hwf2 Hr2) as Hl2.
    apply list_eq. intros j.
    destruct (decide (j < height b1)%nat) as [Hj|Hj].
    + set (p := point.New (Z.of_nat j) (Z.of_nat i)).
      assert (Hp : inb b1 p = true) by (apply inb_spec; simpl; lia).
      assert (Hp2 : inb b2 p = true) by by rewrite (inb_same_height b1 b2).
      destruct (cell_wf b1 p Hwf1 Hp) as (r1' & Hr1' & Hc1).
      destruct (cell_wf b2 p Hwf2 Hp2) as (r2' & Hr2' & Hc2).
      simpl in *. rewrite Nat2Z.id in *.
      rewrite Hr1 in Hr1'. rewrite Hr2 in Hr2'.
      injection Hr1' as <-. injection Hr2' as <-.
      rewrite Hc1, Hc2. f_equal. by apply Hcell.
    + rewrite !lookup_ge_None_2; [done | lia | lia].
  - rewrite !lookup_ge_None_2; [done | unfold height in *; lia
                                | unfold height in *; lia].
Qed.

Lemma setColor_wf (b : Board) (p : Point) (c : Color) :
  wf b -> inb b p = true ->
  exists b', setColor b (move.NewMove c p) = Done b' /\
             wf b' /\ height b' = height b /\ ko b' = ko b /\
             cell b' p = c /\
             (forall q, q <> p -> cell b' q = cell b q).
Proof.
  intros Hwf Hp. destruct (cell_wf b p Hwf Hp) as (row & Hrow & Hc).
  pose proof (wf_row _ _ _ Hwf Hrow) as Hlen.
  pose proof Hp as Hp'. apply inb_spec in Hp' as [Hx Hy].
  set (row' := <[Z.to_nat (point.X p) := c]> row).
  set (b' := mkBoard (<[Z.to_nat (point.Y p) := row']> (board b)) (ko b)).
  assert (Hh' : height b' = height b).
  { unfold height, b'. simpl. by rewrite length_insert. }
  assert (Hwf' : wf b').
  { destruct Hwf as (H1 & H2 & H3). unfold wf. rewrite Hh'.
    split_and!; [done | done |]. unfold b'. simpl.
    apply Forall_insert; [done|]. unfold row'. by rewrite length_insert. }
  exists b'. split_and!; try done.
  - unfold setColor. simpl.
    assert (index (board b) (point.Y p) = Done row) as ->
      by (apply index_Done; split; [lia | done]).
    simpl.
    assert (index row (point.X p) = Done (cell b p)) as ->
      by (apply index_Done; split; [lia | done]).
    done.
  - apply (cell_lookup b' p row'); [lia | lia | |].
    + unfold b'. simpl. apply list_lookup_insert_eq. unfold height in *. lia.
    + unfold row'. apply list_lookup_insert_eq. lia.
  - intros q Hq. destruct (inb b q) eqn:Hqb.
    + destruct (cell_wf b q Hwf Hqb) as (rq & Hrq & Hcq).
      apply inb_spec in Hqb as [Hqx Hqy].
      destruct (decide (Z.to_nat (point.Y q) = Z.to_nat (point.Y p))) as [Ey|Ey].
      * rewrite Ey in Hrq. rewrite Hrow in Hrq. injection Hrq as <-.
        apply (cell_lookup b' q row'); [lia | lia | |].
        -- unfold b'. simpl. rewrite Ey. apply list_lookup_insert_eq.
           unfold height in *. lia.
        -- unfold row'. rewrite list_lookup_insert_ne; [done|].
           intros Ex. apply Hq. destruct p, q. simpl in *. f_equal; lia.
      * apply (cell_lookup b' q rq); [lia | lia | | done].
        unfold b'. simpl. by rewrite list_lookup_insert_ne.
    + rewrite (cell_outside b q Hwf Hqb). apply cell_outside; [done|].
      by rewrite (inb_same_height b b').
Qed.

(** ** Neighbours *)

Lemma wrap64_small (z : Z) : - 2 ^ 63 <= z < 2 ^ 63 -> wrap64 z = z.
Proof. intros Hz. unfold wrap64. rewrite Z.mod_small; lia. Qed.

(** On the grid, [getNeighbors] is orthogonal adjacency: no coordinate of
    a point of the grid is close enough to the ends of [int64] to wrap. *)
Lemma getNeighbors_adjacent (b : Board) (q r : Point) :
  wf b -> inb b q = true -> r ∈ getNeighbors q <-> adjacent q r.
Proof.
  intros (_ & Hmax & _) Hq. apply inb_spec in Hq as [Hx Hy].
  unfold max_int in Hmax. destruct q as [x y], r as [x' y'].
  unfold getNeighbors, adjacent. simpl in *.
  rewrite !wrap64_small by lia.
  rewrite !elem_of_cons, elem_of_nil. split.
  - intros [H|[H|[H|[H|[]]]]]; injection H as -> ->; lia.
  - intros H.
    assert ((x' = x + 1 /\ y' = y) \/ (x' = x - 1 /\ y' = y) \/
            (x' = x /\ y' = y + 1) \/ (x' = x /\ y' = y - 1)) as Hc by lia.
    destruct Hc as [[-> ->]|[[-> ->]|[[-> ->]|[-> ->]]]]; auto.
Qed.

Lemma all_points_length (b : Board) :
  length (all_points b) = (height b * height b)%nat.
Proof. unfold all_points. by rewrite length_fmap, length_prod, !length_seq. Qed.

Lemma all_points_inb (b : Board) (p : Point) :
  inb b p = true -> p ∈ all_points b.
Proof.
  intros Hp. apply inb_spec in Hp as [Hx Hy]. unfold all_points.
  apply list_elem_of_fmap.
  exists (Z.to_nat (point.X p), Z.to_nat (point.Y p)). split.
  - destruct p as [x y]. simpl in *. f_equal; lia.
  - apply list_elem_of_In, in_prod; apply in_seq; lia.
Qed.

(** A map whose keys are points of the grid has at most as many entries as
    the grid has points. *)
Lemma expanded_size_bound (b : Board) (expanded : gmap Point bool) :
  (forall q, is_Some (expanded !! q) -> inb b q = true) ->
  (size expanded <= height b * height b)%nat.
Proof.
  intros Hkeys. rewrite <- all_points_length, <- length_map_to_list.
  rewrite <- (length_fmap fst). apply submseteq_length, NoDup_submseteq.
  - apply NoDup_fst_map_to_list.
  - intros q Hq. apply all_points_inb, Hkeys.
    apply list_elem_of_fmap in Hq as ([q' v] & -> & Hq).
    apply elem_of_map_to_list in Hq. simpl. eauto.
Qed.

(** ** The analyzer's loop *)

Section analyzer.
Variable b : Board.
Hypothesis Hwf : wf b.
Variable pt : Point.
Hypothesis Hpt : inb b pt = true.
Hypothesis Hstone : cell b pt <> color.Empty.

Lemma loop_unfold (fuel : nat) (p : Point) (queue : list Value)
    (expanded : gmap Point bool) :
  capturedStones_loop (S fuel) b (cell b pt) (VPoint p :: queue) expanded =
  if inb b p then
    if decide (cell b p = color.Empty) then Done None
    else if bool_decide (cell b p = cell b pt) && negb (default false (expanded !! p))
    then capturedStones_loop fuel b (cell b pt)
           (queue ++ (VPoint <$> getNeighbors p)) (<[p := true]> expanded)
    else capturedStones_loop fuel b (cell b pt) queue expanded
  else capturedStones_loop fuel b (cell b pt) queue expanded.
Proof.
  cbn [capturedStones_loop]. rewrite (inBounds_wf b p Hwf).
  destruct (inb b p) eqn:Hp; [|done].
  cbn. rewrite (colorAt_wf b p Hwf Hp). cbn.
  by destruct (decide (cell b p = color.Empty)).
Qed.

Lemma group_cell (q : Point) : group b pt q -> cell b q = cell b pt.
Proof. by destruct 1. Qed.

Lemma loop_inv_init : loop_inv b pt [VPoint pt] ∅.
Proof.
  split.
  - intros v Hv. apply list_elem_of_singleton in Hv as ->. eauto.
  - intros q v Hq. by rewrite lookup_empty in Hq.
  - intros q n Hq. by rewrite lookup_empty in Hq.
  - left. by apply list_elem_of_singleton.
Qed.

Lemma settled_mono (expanded : gmap Point bool) (p n : Point) :
  settled b pt expanded n -> settled b pt (<[p := true]> expanded) n.
Proof.
  intros [H|[H1 [H|H]]]; [by left | right; auto | right].
  split; [done|]. right. destruct (decide (p = n)) as [->|Hne].
  - apply lookup_insert_eq.
  - by rewrite lookup_insert_ne.
Qed.

(** The dequeued point is skipped: off the grid, an opponent, or seen. *)
Lemma loop_inv_skip (p : Point) (queue : list Value)
    (expanded : gmap Point bool) :
  loop_inv b pt (VPoint p :: queue) expanded ->
  settled b pt expanded p ->
  loop_inv b pt queue expanded.
Proof.
  intros [Hq He Hf Hs] Hp. split.
  - intros v Hv. apply Hq. by right.
  - done.
  - intros q n Hqe Hn. destruct (Hf q n Hqe Hn) as [Hin|?]; [|by right].
    apply elem_of_cons in Hin as [[= ->]|?]; [by right | by left].
  - destruct Hs as [Hin|?]; [|by right].
    apply elem_of_cons in Hin as [[= <-]|?]; [|by left].
    right. destruct Hp as [Hp|[_ [Hp|Hp]]]; [congruence | done | done].
Qed.

(** The dequeued point is a new stone of the group: it is expanded. *)
Lemma loop_inv_expand (p : Point) (queue : list Value)
    (expanded : gmap Point bool) :
  loop_inv b pt (VPoint p :: queue) expanded ->
  inb b p = true -> cell b p = cell b pt ->
  loop_inv b pt (queue ++ (VPoint <$> getNeighbors p)) (<[p := true]> expanded).
Proof.
  intros [Hq He Hf Hs] Hp Hc.
  assert (Hgp : group b pt p).
  { destruct (Hq (VPoint p)) as (p' & [= <-] & [->|(q & Hqe & Hn)]);
      [by left | constructor |].
    destruct (He q true Hqe) as (_ & Hqb & Hg).
    apply (group_step b pt q p); [done | | done | done].
    by apply (getNeighbors_adjacent b q p Hwf Hqb). }
  split.
  - intros v Hv. apply elem_of_app in Hv as [Hv|Hv].
    + destruct (Hq v) as (p' & -> & [->|(q & Hqe & Hn)]); [by right | eauto |].
      exists p'. split; [done|]. right. exists q. split; [|done].
      destruct (decide (p = q)) as [->|Hne];
        [apply lookup_insert_eq | by rewrite lookup_insert_ne].
    + apply list_elem_of_fmap in Hv as (n & -> & Hn).
      exists n. split; [done|]. right. exists p.
      split; [apply lookup_insert_eq | done].
  - intros q v Hqe. destruct (decide (p = q)) as [<-|Hne].
    + rewrite lookup_insert_eq in Hqe. injection Hqe as <-. done.
    + rewrite lookup_insert_ne in Hqe by done. eauto.
  - intros q n Hqe Hn. destruct (decide (p = q)) as [<-|Hne].
    + left. apply elem_of_app. right. by apply list_elem_of_fmap_2.
    + rewrite lookup_insert_ne in Hqe by done.
      destruct (Hf q n Hqe Hn) as [Hin|Hset]; [|right; by apply settled_mono].
      apply elem_of_cons in Hin as [[= ->]|Hin].
      * right. right. split; [congruence|].
        right. apply lookup_insert_eq.
      * left. apply elem_of_app. by left.
  - destruct Hs as [Hin|Hin].
    + apply elem_of_cons in Hin as [[= <-]|Hin].
      * right. apply lookup_insert_eq.
      * left. apply elem_of_app. by left.
    + right. destruct (decide (p = pt)) as [->|Hne];
        [apply lookup_insert_eq | by rewrite lookup_insert_ne].
Qed.

(** When the queue runs empty, [expanded] is the whole group and no
    stone of it has a liberty. *)
Lemma loop_inv_exit (expanded : gmap Point bool) :
  loop_inv b pt [] expanded ->
  (forall q, expanded !! q = Some true <-> group b pt q) /\
  ~ has_liberty b pt.
Proof.
  intros [Hq He Hf Hs].
  assert (Hall : forall q, group b pt q -> expanded !! q = Some true).
  { induction 1 as [|q r Hg IH Hadj Hr Hc].
    - destruct Hs as [Hin|?]; [|done]. by apply elem_of_nil in Hin.
    - destruct (He q true IH) as (_ & Hqb & _).
      apply (getNeighbors_adjacent b q r Hwf Hqb) in Hadj.
      destruct (Hf q r IH Hadj) as [Hin|[Hout|[_ [Hne|?]]]];
        [by apply elem_of_nil in Hin | congruence | done | done]. }
  split.
  - intros q. split; [|apply Hall]. intros Hqe. by apply (He q true).
  - intros (r & q & Hg & Hadj & Hr & Hc).
    pose proof (Hall q Hg) as Hqe. destruct (He q true Hqe) as (_ & Hqb & _).
    apply (getNeighbors_adjacent b q r Hwf Hqb) in Hadj.
    destruct (Hf q r Hqe Hadj) as [Hin|[Hout|[Hne _]]];
      [by apply elem_of_nil in Hin | congruence | done].
Qed.

(** An Empty point leaves the queue: it is a liberty of the group. *)
Lemma loop_inv_liberty (p : Point) (queue : list Value)
    (expanded : gmap Point bool) :
  loop_inv b pt (VPoint p :: queue) expanded ->
  inb b p = true -> cell b p = color.Empty ->
  has_liberty b pt.
Proof.
  intros [Hq He Hf Hs] Hp Hc.
  destruct (Hq (VPoint p)) as (p' & [= <-] & [->|(q & Hqe & Hn)]);
    [by left | done |].
  destruct (He q true Hqe) as (_ & Hqb & Hg).
  exists p, q. split_and!; try done.
  by apply (getNeighbors_adjacent b q p Hwf Hqb).
Qed.

(** The loop returns, within the fuel the size of the grid grants, and
    its answer is the right one. *)
Lemma loop_correct (fuel : nat) :
  forall (queue : list Value) (expanded : gmap Point bool),
    loop_inv b pt queue expanded ->
    (4 * (height b * height b - size expanded) + length queue < fuel)%nat ->
    exists r, capturedStones_loop fuel b (cell b pt) queue expanded = Done r /\
      match r with
      | None => has_liberty b pt
      | Some e =>
          (forall q, e !! q = Some true <-> group b pt q) /\
          (forall q v, e !! q = Some v -> v = true) /\
          ~ has_liberty b pt
      end.
Proof.
  induction fuel as [|fuel IH]; intros queue expanded Hinv Hfuel; [lia|].
  destruct queue as [|[p|] queue].
  - exists (Some expanded). split; [done|].
    destruct (loop_inv_exit expanded Hinv) as [H1 H2].
    split_and!; [done | | done].
    intros q v Hq. by destruct (inv_expanded _ _ _ _ Hinv q v Hq).
  - rewrite loop_unfold. simpl in Hfuel.
    destruct (inb b p) eqn:Hp.
    + destruct (decide (cell b p = color.Empty)) as [Hc|Hc].
      { exists None. split; [done|]. by eapply loop_inv_liberty. }
      destruct (bool_decide (cell b p = cell b pt)
                && negb (default false (expanded !! p))) eqn:Hb.
      * apply andb_true_iff in Hb as [Hcol Hnew].
        apply bool_decide_eq_true in Hcol.
        pose proof (loop_inv_expand p queue expanded Hinv Hp Hcol)
          as Hinv'.
        assert (Hnone : expanded !! p = None).
        { destruct (expanded !! p) as [v|] eqn:E; [|done].
          destruct (inv_expanded _ _ _ _ Hinv p v E) as [-> _].
          done. }
        apply IH; [done|].
        assert (size (<[p := true]> expanded) <= height b * height b)%nat
          as Hsz.
        { apply expanded_size_bound. intros q [v Hq].
          by destruct (inv_expanded _ _ _ _ Hinv' q v Hq) as (_ & ? & _). }
        rewrite map_size_insert_None in * by done.
        rewrite length_app, length_fmap. simpl. lia.
      * apply IH; [|lia]. apply (loop_inv_skip p); [done|].
        right. split; [done|].
        apply andb_false_iff in Hb as [Hb|Hb].
        -- left. by apply bool_decide_eq_false in Hb.
        -- right. destruct (expanded !! p) as [v|] eqn:E; [|done].
           by destruct (inv_expanded _ _ _ _ Hinv p v E) as [-> _].
    + apply IH; [|lia]. apply (loop_inv_skip p); [done|]. by left.
  - destruct (inv_queue _ _ _ _ Hinv VOther) as (p & ? & _);
      [by left | done].
Qed.

Lemma stoneGroup_keys (expanded : gmap Point bool) :
  stoneGroup expanded = (map_to_list expanded).*1.
Proof.
  unfold stoneGroup. rewrite <- (list_fmap_id (map_to_list expanded).*1) at 2.
  apply list_fmap_ext. by intros _ [x y] _.
Qed.

(** [capturedStones] on a stone of the grid: [nil] if its group has a
    liberty, the group otherwise. *)
Lemma capturedStones_group :
  exists l, capturedStones b pt = Done l /\
    ((has_liberty b pt /\ l = []) \/
     (~ has_liberty b pt /\ NoDup l /\ forall q, q ∈ l <-> group b pt q)).
Proof.
  unfold capturedStones. rewrite (colorAt_wf b pt Hwf Hpt), bind_Done.
  destruct (loop_correct (loop_fuel b) [VPoint pt] ∅) as (r & Hr & Hpost).
  - by apply loop_inv_init.
  - unfold loop_fuel. pose proof (wf_width b Hwf) as Hw.
    unfold width, height in *. rewrite Hw, map_size_empty. simpl. lia.
  - rewrite Hr, bind_Done. destruct r as [e|].
    + exists (stoneGroup e). split; [done|]. right.
      destruct Hpost as (Hg & Htrue & Hno).
      rewrite stoneGroup_keys. split_and!; [done | |].
      * apply NoDup_fst_map_to_list.
      * intros q. rewrite <- Hg. rewrite list_elem_of_fmap. split.
        -- intros ([q' v] & -> & Hin). apply elem_of_map_to_list in Hin.
           simpl. by rewrite (Htrue _ _ Hin) in Hin.
        -- intros Hq. exists (q, true). split; [done|].
           by apply elem_of_map_to_list.
    + exists []. split; [done|]. by left.
Qed.
End analyzer.

(** ** Results of one analysis *)

Lemma group_inb (b : Board) (pt q : Point) :
  inb b pt = true -> group b pt q -> inb b q = true.
Proof. by destruct 2. Qed.

Lemma group_color (b : Board) (pt q : Point) :
  group b pt q -> cell b q = cell b pt.
Proof. by destruct 1. Qed.

(** Started on an Empty point, the analyzer returns [nil] at the first
    element it dequeues. *)
Lemma capturedStones_empty (b : Board) (p : Point) :
  wf b -> inb b p = true -> cell b p = color.Empty ->
  capturedStones b p = Done [].
Proof.
  intros Hwf Hp Hc. unfold capturedStones, loop_fuel.
  rewrite (colorAt_wf b p Hwf Hp), bind_Done.
  rewrite (loop_unfold b Hwf p), Hp.
  by destruct (decide (cell b p = color.Empty)).
Qed.

Lemma capturedStones_total (b : Board) (p : Point) :
  wf b -> inb b p = true ->
  capturedStones b p = Done (analysis b p) /\
  ((analysis b p = [] /\ (cell b p = color.Empty \/ has_liberty b p)) \/
   (cell b p <> color.Empty /\ ~ has_liberty b p /\ NoDup (analysis b p) /\
    forall q, q ∈ analysis b p <-> group b p q)).
Proof.
  intros Hwf Hp. unfold analysis.
  destruct (decide (cell b p = color.Empty)) as [Hc|Hc].
  - rewrite (capturedStones_empty b p Hwf Hp Hc). auto.
  - destruct (capturedStones_group b Hwf p Hp Hc) as (l & -> & H).
    split; [done|]. destruct H as [[H ->]|H]; auto.
Qed.

Lemma analysis_inb (b : Board) (p q : Point) :
  wf b -> inb b p = true -> q ∈ analysis b p ->
  inb b q = true /\ cell b q = cell b p /\ cell b q <> color.Empty.
Proof.
  intros Hwf Hp Hq.
  destruct (capturedStones_total b p Hwf Hp) as [_ [[E _]|(Hc & _ & _ & Hg)]].
  - rewrite E in Hq. by apply elem_of_nil in Hq.
  - apply Hg in Hq. pose proof (group_color b p q Hq) as Hcol.
    split_and!; [by eapply group_inb | done | congruence].
Qed.

(** ** Captures of a placement *)

Lemma findCapturedGroups_loop_wf (b : Board) (points captured calls : list Point) :
  wf b ->
  findCapturedGroups_loop b points captured calls =
  Done (captured ++ concat (analysis b <$> filter (fun p => inb b p = true) points),
        calls ++ filter (fun p => inb b p = true) points).
Proof.
  intros Hwf. revert captured calls.
  induction points as [|p points IH]; intros captured calls.
  - simpl. by rewrite !app_nil_r.
  - cbn [findCapturedGroups_loop]. rewrite (inBounds_wf b p Hwf), bind_Done.
    destruct (inb b p) eqn:Hp.
    + destruct (capturedStones_total b p Hwf Hp) as [-> _].
      rewrite bind_Done, IH, filter_cons_True by done.
      cbn [fmap list_fmap concat]. by rewrite <- !app_assoc.
    + rewrite IH, filter_cons_False; [done | congruence].
Qed.

Lemma findCapturedGroups_wf (b : Board) (m : Move) :
  wf b ->
  findCapturedGroups b m =
  Done (concat (analysis b <$>
          filter (fun p => inb b p = true) (getNeighbors (move.Point m)))).
Proof.
  intros Hwf. unfold findCapturedGroups, findCapturedGroups_traced.
  by rewrite (findCapturedGroups_loop_wf b _ [] [] Hwf), bind_Done.
Qed.

Lemma removeCapturedStones_wf (l : list Point) :
  forall b : Board,
    wf b -> Forall (fun p => inb b p = true) l ->
    exists b', removeCapturedStones b l = Done b' /\
               wf b' /\ height b' = height b /\ ko b' = ko b /\
               forall q, cell b' q = if decide (q ∈ l) then color.Empty
                                     else cell b q.
Proof.
  induction l as [|p l IH]; intros b Hwf Hl.
  - exists b. by split_and!.
  - inversion Hl as [|? ? Hp Hl']; subst.
    destruct (setColor_wf b p color.Empty Hwf Hp)
      as (b1 & Hset & Hwf1 & Hh1 & Hko1 & Hcp & Hcq).
    destruct (IH b1 Hwf1) as (b' & Hrem & Hwf' & Hh' & Hko' & Hcell).
    { eapply List.Forall_impl; [|exact Hl']. intros q Hq. simpl in *.
      by rewrite (inb_same_height b b1). }
    exists b'. cbn [removeCapturedStones]. rewrite Hset, bind_Done.
    split_and!; [done | done | congruence | congruence |].
    intros q. rewrite Hcell.
    destruct (decide (q ∈ l)) as [Hin|Hin].
    + rewrite decide_True; [done | by right].
    + destruct (decide (q = p)) as [->|Hne].
      * rewrite decide_True; [done | by left].
      * rewrite decide_False; [by apply Hcq|].
        intros [?|?]%elem_of_cons; done.
Qed.

(** ** The paths of [PlaceStone] *)

Lemma PlaceStone_out_of_bounds (b : Board) (m : Move) :
  wf b -> inb b (move.Point m) = false ->
  PlaceStone b m =
  Done (set_ko b None, [],
        Some (ErrOutOfBounds (move.Point m) (height b) (height b))).
Proof.
  intros Hwf Hp. unfold PlaceStone.
  rewrite (inBounds_wf (set_ko b None) _ Hwf), bind_Done.
  change (inb (set_ko b None) (move.Point m)) with (inb b (move.Point m)).
  rewrite Hp. cbn [negb set_ko board].
  pose proof (wf_width b Hwf) as Hw. unfold width, height in *.
  destruct Hwf as (Hh & _). unfold height in Hh.
  destruct (board b) as [|row rows]; simpl in *; [lia|]. by rewrite Hw.
Qed.

Lemma PlaceStone_occupied (b : Board) (m : Move) :
  wf b -> cell b (move.Point m) <> color.Empty ->
  PlaceStone b m =
  Done (set_ko b None, [], Some (ErrOccupied (move.Point m))).
Proof.
  intros Hwf Hc.
  assert (Hp : inb b (move.Point m) = true).
  { destruct (inb b (move.Point m)) eqn:E; [done|].
    by rewrite (cell_outside b _ Hwf E) in Hc. }
  unfold PlaceStone.
  rewrite (inBounds_wf (set_ko b None) _ Hwf), bind_Done.
  change (inb (set_ko b None) (move.Point m)) with (inb b (move.Point m)).
  rewrite Hp. cbn [negb].
  rewrite (colorAt_wf (set_ko b None) _ Hwf Hp), bind_Done.
  change (cell (set_ko b None) (move.Point m)) with (cell b (move.Point m)).
  by rewrite decide_True.
Qed.

Lemma tentative_spec (b : Board) (m : Move) :
  wf b -> inb b (move.Point m) = true ->
  setColor (set_ko b None) m = Done (tentative b m) /\
  wf (tentative b m) /\ height (tentative b m) = height b /\
  ko (tentative b m) = None /\
  cell (tentative b m) (move.Point m) = move.Color m /\
  (forall q, q <> move.Point m -> cell (tentative b m) q = cell b q).
Proof.
  intros Hwf Hp. unfold tentative. destruct m as [c p]. simpl in *.
  destruct (setColor_wf (set_ko b None) p c Hwf Hp)
    as (b1 & -> & H1 & H2 & H3 & H4 & H5).
  by split_and!.
Qed.

(** Clearing the tentative stone gives back the grid of before the call. *)
Lemma revert_tentative (b : Board) (m : Move) (k : option Point) :
  wf b -> inb b (move.Point m) = true ->
  cell b (move.Point m) = color.Empty ->
  setColor (set_ko (tentative b m) k) (move.NewMove color.Empty (move.Point m))
  = Done (mkBoard (board b) k).
Proof.
  intros Hwf Hp Hc.
  destruct (tentative_spec b m Hwf Hp) as (_ & Hwf1 & Hh1 & _ & _ & Hq1).
  destruct (setColor_wf (set_ko (tentative b m) k) (move.Point m) color.Empty)
    as (b2 & -> & Hwf2 & Hh2 & Hko2 & Hp2 & Hq2).
  { done. }
  { by rewrite (inb_same_height b). }
  f_equal. destruct b2 as [g2 k2]. simpl in Hko2. subst k2. f_equal.
  symmetry. apply (grid_ext b (mkBoard g2 k) Hwf Hwf2).
  { rewrite Hh2. symmetry. exact Hh1. }
  intros q _. destruct (decide (q = move.Point m)) as [->|Hne].
  - by rewrite Hp2.
  - rewrite (Hq2 q Hne). symmetry. by apply Hq1.
Qed.

Lemma captures_spec (b : Board) (m : Move) :
  wf b -> inb b (move.Point m) = true ->
  findCapturedGroups_traced (tentative b m) m =
    Done (captures b m,
          filter (fun p => inb b p = true) (getNeighbors (move.Point m))) /\
  findCapturedGroups (tentative b m) m = Done (captures b m) /\
  captures b m =
    concat (analysis (tentative b m) <$>
              filter (fun p => inb b p = true) (getNeighbors (move.Point m))).
Proof.
  intros Hwf Hp.
  destruct (tentative_spec b m Hwf Hp) as (_ & Hwf1 & Hh1 & _).
  assert (Hf : filter (fun p => inb (tentative b m) p = true)
                 (getNeighbors (move.Point m)) =
               filter (fun p => inb b p = true) (getNeighbors (move.Point m))).
  { apply list_filter_iff. intros q. by rewrite (inb_same_height b). }
  unfold captures. rewrite (findCapturedGroups_wf _ m Hwf1), Hf.
  split_and!; try done.
  unfold findCapturedGroups_traced.
  by rewrite (findCapturedGroups_loop_wf _ _ [] [] Hwf1), Hf.
Qed.

Lemma captures_inb (b : Board) (m : Move) (q : Point) :
  wf b -> inb b (move.Point m) = true -> q ∈ captures b m ->
  inb b q = true /\ cell (tentative b m) q <> color.Empty.
Proof.
  intros Hwf Hp Hq.
  destruct (tentative_spec b m Hwf Hp) as (_ & Hwf1 & Hh1 & _).
  destruct (captures_spec b m Hwf Hp) as (_ & _ & E). rewrite E in Hq.
  apply list_elem_of_In, in_concat in Hq as (l & Hl & Hq).
  apply list_elem_of_In, list_elem_of_fmap in Hl as (n & -> & Hn).
  apply list_elem_of_filter in Hn as [Hn _].
  apply list_elem_of_In in Hq.
  destruct (analysis_inb (tentative b m) n q Hwf1) as (H1 & _ & H3);
    [by rewrite (inb_same_height b) | done |].
  split; [by rewrite <- (inb_same_height b (tentative b m)) | done].
Qed.

Lemma set_ko_same (b : Board) (k : option Point) : ko b = k -> set_ko b k = b.
Proof. destruct b. simpl. by intros ->. Qed.

Lemma committed_spec (b : Board) (m : Move) :
  wf b -> inb b (move.Point m) = true ->
  removeCapturedStones (set_ko (tentative b m) (new_ko b m)) (captures b m)
    = Done (committed b m) /\
  wf (committed b m) /\ height (committed b m) = height b /\
  ko (committed b m) = new_ko b m /\
  forall q, cell (committed b m) q =
            if decide (q ∈ captures b m) then color.Empty
            else cell (tentative b m) q.
Proof.
  intros Hwf Hp.
  destruct (tentative_spec b m Hwf Hp) as (_ & Hwf1 & Hh1 & _).
  destruct (removeCapturedStones_wf (captures b m)
              (set_ko (tentative b m) (new_ko b m)))
    as (b' & Hrem & Hwf' & Hh' & Hko' & Hcell).
  { done. }
  { apply Forall_forall. intros q Hq.
    change (inb (tentative b m) q = true).
    rewrite (inb_same_height b (tentative b m) q Hh1).
    apply (captures_inb b m q Hwf Hp). by apply list_elem_of_In. }
  unfold committed. rewrite Hrem.
  split_and!; [done | done | exact (eq_trans Hh' Hh1) | exact Hko' | exact Hcell].
Qed.

(** [PlaceStone] on an Empty point of the grid: the three ways out. *)
Lemma PlaceStone_empty (b : Board) (m : Move) :
  wf b -> inb b (move.Point m) = true ->
  cell b (move.Point m) = color.Empty ->
  PlaceStone b m =
  if decide (captures b m = [] /\ analysis (tentative b m) (move.Point m) <> [])
  then Done (set_ko b None, [], Some (ErrSuicidal (move.Point m)))
  else match captures b m with
       | [stone] =>
           if decide (ko b = Some stone)
           then Done (mkBoard (board b) (Some (move.Point m)), [],
                      Some (ErrIllegalKo (move.Point m)))
           else Done (committed b m, captures b m, None)
       | _ => Done (committed b m, captures b m, None)
       end.
Proof.
  intros Hwf Hp Hc.
  destruct (tentative_spec b m Hwf Hp) as (Htent & Hwf1 & Hh1 & Hko1 & _).
  destruct (captures_spec b m Hwf Hp) as (_ & Hcap & _).
  destruct (committed_spec b m Hwf Hp) as (Hcom & _).
  assert (Hp1 : inb (tentative b m) (move.Point m) = true)
    by by rewrite (inb_same_height b).
  destruct (capturedStones_total _ _ Hwf1 Hp1) as [Hown _].
  unfold PlaceStone.
  rewrite (inBounds_wf (set_ko b None) _ Hwf), bind_Done.
  change (inb (set_ko b None) (move.Point m)) with (inb b (move.Point m)).
  rewrite Hp. cbn [negb].
  rewrite (colorAt_wf (set_ko b None) _ Hwf Hp), bind_Done.
  change (cell (set_ko b None) (move.Point m)) with (cell b (move.Point m)).
  rewrite decide_False by (intros H; by apply H).
  rewrite Htent, bind_Done, Hcap, bind_Done.
  unfold new_ko in Hcom.
  destruct (captures b m) as [|stone [|stone' rest]] eqn:Ecap.
  - rewrite decide_True by done. rewrite Hown, !bind_Done.
    rewrite (set_ko_same _ None Hko1) in Hcom.
    destruct (analysis (tentative b m) (move.Point m)) as [|own owns] eqn:Eown.
    + rewrite decide_False by (intros [_ H]; by apply H).
      cbn [length bool_decide negb]. rewrite bool_decide_eq_true_2 by done.
      cbn [negb]. by rewrite Hcom, bind_Done.
    + rewrite decide_True by done.
      rewrite bool_decide_eq_false_2 by done. cbn [negb].
      pose proof (revert_tentative b m None Hwf Hp Hc) as Hrev.
      rewrite (set_ko_same _ None Hko1) in Hrev.
      by rewrite Hrev, bind_Done.
  - destruct (decide (length [stone] = 0%nat)) as [?|_]; [done|].
    rewrite bind_Done.
    destruct (decide ([stone] = [] /\ _)) as [[? _]|_]; [done|].
    destruct (decide (ko b = Some stone)) as [Hk|Hk].
    + by rewrite (revert_tentative b m _ Hwf Hp Hc), bind_Done.
    + by rewrite Hcom, bind_Done.
  - destruct (decide (length (stone :: stone' :: rest) = 0%nat)) as [?|_];
      [done|].
    rewrite bind_Done.
    destruct (decide (stone :: stone' :: rest = [] /\ _)) as [[? _]|_]; [done|].
    rewrite (set_ko_same _ None Hko1) in Hcom.
    by rewrite Hcom, bind_Done.
Qed.

Lemma new_ko_cases (b : Board) (m : Move) :
  (new_ko b m = None /\ length (captures b m) <> 1%nat) \/
  (new_ko b m = Some (move.Point m) /\ exists stone, captures b m = [stone]).
Proof.
  unfold new_ko. destruct (captures b m) as [|stone [|stone' rest]]; eauto.
Qed.

(** Every call on a well-formed board returns, and leaves a well-formed
    board of the same side whose ko is unset or the point just played. *)
Lemma PlaceStone_total (b : Board) (m : Move) :
  wf b ->
  exists b' l e, PlaceStone b m = Done (b', l, e) /\
    wf b' /\ height b' = height b /\
    (ko b' = None \/ (ko b' = Some (move.Point m) /\ inb b (move.Point m) = true)).
Proof.
  intros Hwf. destruct (inb b (move.Point m)) eqn:Hp.
  - destruct (decide (cell b (move.Point m) = color.Empty)) as [Hc|Hc].
    + rewrite (PlaceStone_empty b m Hwf Hp Hc).
      destruct (committed_spec b m Hwf Hp) as (_ & Hwf' & Hh' & Hko' & _).
      assert (Hcommit : wf (committed b m) /\ height (committed b m) = height b /\
                (ko (committed b m) = None \/
                 (ko (committed b m) = Some (move.Point m) /\ true = true))).
      { split_and!; [done | done |]. rewrite Hko'.
        destruct (new_ko_cases b m) as [[-> _]|[-> _]]; auto. }
      destruct (decide (captures b m = [] /\ _)) as [_|_];
        [by exists (set_ko b None), [], (Some (ErrSuicidal (move.Point m))); eauto|].
      destruct (captures b m) as [|stone [|stone' rest]] eqn:E; [by eauto 10| |by eauto 10].
      destruct (decide (ko b = Some stone)) as [_|_]; [|by eauto 10].
      eexists _, _, _. split; [done|]. split_and!; [done | done | by right].
    + rewrite (PlaceStone_occupied b m Hwf Hc). eexists _, _, _.
      split; [done|]. split_and!; [done | done | by left].
  - rewrite (PlaceStone_out_of_bounds b m Hwf Hp). eexists _, _, _.
    split; [done|]. split_and!; [done | done | by left].
Qed.

(** What a call that returns no error did. *)
Lemma PlaceStone_success (b b' : Board) (m : Move) (l : list Point) :
  wf b -> PlaceStone b m = Done (b', l, None) ->
  inb b (move.Point m) = true /\ cell b (move.Point m) = color.Empty /\
  l = captures b m /\ b' = committed b m /\
  (captures b m = [] -> analysis (tentative b m) (move.Point m) = []) /\
  (forall stone, captures b m = [stone] -> ko b <> Some stone).
Proof.
  intros Hwf H. destruct (inb b (move.Point m)) eqn:Hp;
    [|by rewrite (PlaceStone_out_of_bounds b m Hwf Hp) in H].
  destruct (decide (cell b (move.Point m) = color.Empty)) as [Hc|Hc];
    [|by rewrite (PlaceStone_occupied b m Hwf Hc) in H].
  rewrite (PlaceStone_empty b m Hwf Hp Hc) in H.
  destruct (decide (captures b m = [] /\ _)) as [?|Hsu]; [done|].
  assert (Hown : captures b m = [] ->
                 analysis (tentative b m) (move.Point m) = []).
  { intros E.
    destruct (decide (analysis (tentative b m) (move.Point m) = []))
      as [?|Hne]; [done|]. by destruct Hsu. }
  destruct (captures b m) as [|stone [|stone' rest]] eqn:E.
  - injection H as <- <-. by split_and!.
  - destruct (decide (ko b = Some stone)) as [?|Hk]; [done|].
    injection H as <- <-. split_and!; try done. by intros ? [= <-].
  - injection H as <- <-. by split_and!.
Qed.

(** ** The analyzer never meets a queue element that is not a point *)

Lemma index_no_NotAPoint {A : Type} (l : list A) (i : Z) :
  index l i <> Panic NotAPoint.
Proof.
  unfold index. destruct (decide (0 <= i)); [|done]. by destruct (l !! _).
Qed.

Lemma bind_no_NotAPoint {A B : Type} (o : outcome A) (f : A -> outcome B) :
  o <> Panic NotAPoint -> (forall a, f a <> Panic NotAPoint) ->
  (o ≫= f) <> Panic NotAPoint.
Proof.
  destruct o as [a|w|]; cbn; intros H Hf;
    [apply Hf | intros [= ->]; by apply H | done].
Qed.

Lemma inBounds_no_NotAPoint (b : Board) (p : Point) :
  inBounds b p <> Panic NotAPoint.
Proof.
  unfold inBounds. apply bind_no_NotAPoint; [apply index_no_NotAPoint | done].
Qed.

Lemma colorAt_no_NotAPoint (b : Board) (p : Point) :
  colorAt b p <> Panic NotAPoint.
Proof.
  unfold colorAt. apply bind_no_NotAPoint; [apply index_no_NotAPoint|].
  intros row. apply index_no_NotAPoint.
Qed.

Lemma capturedStones_loop_points (b : Board) (c : Color) (fuel : nat) :
  forall (queue : list Value) (expanded : gmap Point bool),
    Forall (fun v => exists p, v = VPoint p) queue ->
    capturedStones_loop fuel b c queue expanded <> Panic NotAPoint.
Proof.
  induction fuel as [|fuel IH]; intros queue expanded Hq; [done|].
  destruct queue as [|v queue]; [done|].
  inversion Hq as [|? ? [p ->] Hq']; subst. cbn [capturedStones_loop].
  apply bind_no_NotAPoint; [apply inBounds_no_NotAPoint|].
  intros ib. destruct (negb ib); [by apply IH|].
  apply bind_no_NotAPoint; [apply colorAt_no_NotAPoint|].
  intros c1. destruct (decide (c1 = color.Empty)); [done|].
  apply bind_no_NotAPoint; [apply colorAt_no_NotAPoint|].
  intros c2. destruct (_ && _); apply IH; [|done].
  apply Forall_app. split; [done|].
  apply Forall_fmap, Forall_forall. intros q _. by exists q.
Qed.

Lemma capturedStones_no_NotAPoint (b : Board) (p : Point) :
  capturedStones b p <> Panic NotAPoint.
Proof.
  unfold capturedStones. apply bind_no_NotAPoint; [apply colorAt_no_NotAPoint|].
  intros c. apply bind_no_NotAPoint.
  - apply capturedStones_loop_points. repeat constructor. by exists p.
  - by intros [e|].
Qed.

(** ** Construction and sequences of calls *)

Lemma NewBoard_rows_fill (size : Z) (row : list Color) (k : nat) :
  make color.Empty size = Done row ->
  forall i : nat,
    NewBoard_rows size (seq i k) (replicate i row ++ replicate k []) =
    Done (replicate (i + k) row).
Proof.
  intros Hrow. induction k as [|k IH]; intros i.
  - simpl. by rewrite app_nil_r, Nat.add_0_r.
  - cbn [seq NewBoard_rows]. rewrite Hrow, bind_Done.
    assert (Hi : index (replicate i row ++ replicate (S k) []) (Z.of_nat i)
                 = Done []).
    { apply index_Done. split; [lia|]. rewrite Nat2Z.id.
      rewrite lookup_app_r by (rewrite length_replicate; lia).
      rewrite length_replicate, Nat.sub_diag. done. }
    rewrite Hi, bind_Done.
    rewrite insert_app_r_alt by (rewrite length_replicate; lia).
    rewrite length_replicate, Nat.sub_diag. cbn [replicate insert list_insert].
    replace (replicate i row ++ row :: replicate k [])
      with (replicate (S i) row ++ replicate k []).
    + rewrite IH. f_equal. f_equal. lia.
    + rewrite replicate_S_end, <- app_assoc. done.
Qed.

Lemma NewBoard_spec (size : Z) :
  1 <= size <= max_int ->
  NewBoard size =
  Done (mkBoard (replicate (Z.to_nat size)
                   (replicate (Z.to_nat size) color.Empty)) None).
Proof.
  intros Hsize. unfold NewBoard.
  assert (Hmk : forall (A : Type) (z : A),
             make z size = Done (replicate (Z.to_nat size) z)).
  { intros A z. unfold make. rewrite decide_True; [done | lia]. }
  rewrite Hmk, bind_Done.
  pose proof (NewBoard_rows_fill size _ (Z.to_nat size) (Hmk _ color.Empty) 0%nat)
    as H.
  simpl in H. by rewrite H, bind_Done.
Qed.

Lemma NewBoard_inv (size : Z) :
  1 <= size <= max_int ->
  let b0 := mkBoard (replicate (Z.to_nat size)
                       (replicate (Z.to_nat size) color.Empty)) None in
  board_inv (Z.to_nat size) b0 /\ (forall p, cell b0 p = color.Empty).
Proof.
  intros Hsize b0.
  assert (Hh : height b0 = Z.to_nat size)
    by (unfold height, b0; simpl; by rewrite length_replicate).
  assert (Hwf : wf b0).
  { unfold wf. rewrite Hh. split_and!; [lia | lia |].
    unfold b0. simpl. apply Forall_replicate. by rewrite length_replicate. }
  split; [by split_and!|].
  intros p. destruct (inb b0 p) eqn:Hp; [|by apply cell_outside].
  destruct (cell_wf b0 p Hwf Hp) as (row & Hrow & Hc).
  unfold b0 in Hrow. simpl in Hrow.
  apply lookup_replicate in Hrow as [-> _].
  by apply lookup_replicate in Hc as [-> _].
Qed.

Lemma PlaceStone_inv (size : nat) (b : Board) (m : Move) :
  board_inv size b ->
  exists b' l e, PlaceStone b m = Done (b', l, e) /\ board_inv size b'.
Proof.
  intros (Hwf & Hh & _).
  destruct (PlaceStone_total b m Hwf) as (b' & l & e & HP & Hwf' & Hh' & Hko).
  exists b', l, e. split; [done|]. split_and!; [done | congruence |].
  unfold ko_ok. destruct Hko as [->|[-> Hp]]; [done|].
  by rewrite (inb_same_height b).
Qed.

Lemma play_inv (size : nat) (ms : list Move) :
  forall b : Board,
    board_inv size b -> exists b', play b ms = Done b' /\ board_inv size b'.
Proof.
  induction ms as [|m ms IH]; intros b Hb; [by exists b|].
  destruct (PlaceStone_inv size b m Hb) as (b1 & l & e & HP & Hb1).
  destruct (IH b1 Hb1) as (b' & Hplay & Hb').
  exists b'. cbn [play]. by rewrite HP, bind_Done.
Qed.


(** * The claims of the specification *)

(** ** Group/liberty analyzer *)

(** C1. On a well-formed board, [capturedStones] called on an occupied
    point of the grid returns: it yields [nil] when the group of the
    point has a liberty (an Empty point of the grid next to one of its
    stones; points off the grid are no liberties), and otherwise the whole
    group, each stone once.  So the result is the entire group exactly
    when the group has no liberty, and no stone of a group with a liberty
    is ever listed. *)
Theorem C1_capturedStones_whole_group_iff_no_liberty (b : Board) (pt : Point) :
  wf b -> inb b pt = true -> cell b pt <> color.Empty ->
  exists l, capturedStones b pt = Done l /\
    ((has_liberty b pt /\ l = []) \/
     (~ has_liberty b pt /\ NoDup l /\ forall q, q ∈ l <-> group b pt q)) /\
    (forall q, q ∈ l -> ~ has_liberty b pt /\ group b pt q) /\
    (l = [] <-> has_liberty b pt).
Proof.
  intros Hwf Hpt Hc.
  destruct (capturedStones_group b Hwf pt Hpt Hc) as (l & Hl & H).
  exists l. split; [done|]. split; [done|].
  destruct H as [[Hlib ->]|(Hno & Hnd & Hg)].
  - split; [|done]. intros q Hq. by apply elem_of_nil in Hq.
  - split.
    + intros q Hq. split; [done | by apply Hg].
    + split; [|done]. intros ->.
      assert (H : pt ∈ ([] : list Point)) by (apply Hg; constructor).
      by apply elem_of_nil in H.
Qed.

Lemma C1_witness :
  exists l, capturedStones surrounded3 (point.New 1 1) = Done l /\
    ((has_liberty surrounded3 (point.New 1 1) /\ l = []) \/
     (~ has_liberty surrounded3 (point.New 1 1) /\ NoDup l /\
      forall q, q ∈ l <-> group surrounded3 (point.New 1 1) q)) /\
    (forall q, q ∈ l ->
       ~ has_liberty surrounded3 (point.New 1 1) /\
       group surrounded3 (point.New 1 1) q) /\
    (l = [] <-> has_liberty surrounded3 (point.New 1 1)).
Proof.
  apply (C1_capturedStones_whole_group_iff_no_liberty surrounded3 (point.New 1 1)).
  - concrete_wf.
  - reflexivity.
  - by vm_compute.
Defined.

(** ** Rejections *)

(** C2, as the code has it.  When the ko point remembered at the start of
    the call equals the single stone the placement captures, [PlaceStone]
    fails with the ko error and leaves the grid exactly as it was; the ko
    field is not restored to its value of before the call: it ends set to
    the point of the rejected move. *)
Theorem C2_ko_rejection_keeps_grid_sets_ko (b b1 : Board) (m : Move) (st : Point) :
  wf b -> inb b (move.Point m) = true ->
  cell b (move.Point m) = color.Empty ->
  setColor (set_ko b None) m = Done b1 ->
  findCapturedGroups b1 m = Done [st] ->
  ko b = Some st ->
  exists b', PlaceStone b m = Done (b', [], Some (ErrIllegalKo (move.Point m))) /\
             board b' = board b /\ ko b' = Some (move.Point m).
Proof.
  intros Hwf Hp Hc Hset Hcap Hko.
  destruct (tentative_spec b m Hwf Hp) as (Htent & _).
  rewrite Htent in Hset. injection Hset as <-.
  assert (Ecap : captures b m = [st]) by (unfold captures; by rewrite Hcap).
  exists (mkBoard (board b) (Some (move.Point m))). split; [|done].
  rewrite (PlaceStone_empty b m Hwf Hp Hc), Ecap.
  destruct (decide ([st] = [] /\ _)) as [[? _]|_]; [done|].
  by rewrite decide_True.
Qed.

Lemma C2_witness :
  exists b', PlaceStone ko4 (stone color.Black 2 1)
             = Done (b', [], Some (ErrIllegalKo (point.New 2 1))) /\
             board b' = board ko4 /\ ko b' = Some (point.New 2 1).
Proof.
  apply (C2_ko_rejection_keeps_grid_sets_ko ko4
           (tentative ko4 (stone color.Black 2 1))
           (stone color.Black 2 1) (point.New 1 1)).
  - concrete_wf.
  - reflexivity.
  - reflexivity.
  - reflexivity.
  - by vm_compute.
  - reflexivity.
Defined.

(** C2 fails as stated: on the ko position, after White took at (1,1),
    Black's recapture at (2,1) is rejected as a ko, and the board it
    leaves has its ko field set to (2,1): neither cleared nor equal to
    the board of before the call. *)
Lemma C2_counterexample :
  ko ko4 = Some (point.New 1 1) /\
  findCapturedGroups (tentative ko4 (stone color.Black 2 1))
    (stone color.Black 2 1) = Done [point.New 1 1] /\
  exists b', PlaceStone ko4 (stone color.Black 2 1)
             = Done (b', [], Some (ErrIllegalKo (point.New 2 1))) /\
             ko b' <> None /\ b' <> ko4.
Proof.
  split; [reflexivity|]. split; [by vm_compute|].
  eexists. split; [by vm_compute|]. split; [done|]. by intros [=].
Qed.

(** C3, as the code has it.  When the point of the move is off the grid
    or occupied, [PlaceStone] returns the bounds error, respectively the
    occupied error, the grid is exactly the grid of before the call, and
    the ko field ends unset: the board as a whole is the board of before
    the call exactly when its ko was unset. *)
Theorem C3_bounds_occupied_keep_grid_clear_ko (b : Board) (m : Move) :
  wf b ->
  inb b (move.Point m) = false \/ cell b (move.Point m) <> color.Empty ->
  exists b' e, PlaceStone b m = Done (b', [], Some e) /\
    board b' = board b /\ ko b' = None /\
    (ko b = None <-> b' = b) /\
    ((inb b (move.Point m) = false /\
      e = ErrOutOfBounds (move.Point m) (height b) (height b)) \/
     (inb b (move.Point m) = true /\ cell b (move.Point m) <> color.Empty /\
      e = ErrOccupied (move.Point m))).
Proof.
  intros Hwf Hcase.
  assert (Hboard : ko b = None <-> set_ko b None = b).
  { split; [apply set_ko_same | by intros <-]. }
  destruct (inb b (move.Point m)) eqn:Hp.
  - destruct Hcase as [?|Hc]; [done|].
    rewrite (PlaceStone_occupied b m Hwf Hc).
    eexists _, _. split; [done|]. split_and!; try done. by right.
  - rewrite (PlaceStone_out_of_bounds b m Hwf Hp).
    eexists _, _. split; [done|]. split_and!; try done. by left.
Qed.

Lemma C3_witness :
  exists b' e, PlaceStone ko4 (stone color.Black 9 9) = Done (b', [], Some e) /\
    board b' = board ko4 /\ ko b' = None /\
    (ko ko4 = None <-> b' = ko4) /\
    ((inb ko4 (point.New 9 9) = false /\
      e = ErrOutOfBounds (point.New 9 9) (height ko4) (height ko4)) \/
     (inb ko4 (point.New 9 9) = true /\
      cell ko4 (point.New 9 9) <> color.Empty /\
      e = ErrOccupied (point.New 9 9))).
Proof.
  apply (C3_bounds_occupied_keep_grid_clear_ko ko4 (stone color.Black 9 9)).
  - concrete_wf.
  - left. reflexivity.
Defined.

(** C3 fails as stated: on the ko position both a move off the grid and a
    move on an occupied point are rejected, and the board they leave has
    lost the ko point it had. *)
Lemma C3_counterexample :
  (exists b', PlaceStone ko4 (stone color.Black 9 9)
              = Done (b', [], Some (ErrOutOfBounds (point.New 9 9) 4 4)) /\
              b' <> ko4) /\
  (exists b', PlaceStone ko4 (stone color.Black 1 1)
              = Done (b', [], Some (ErrOccupied (point.New 1 1))) /\
              b' <> ko4).
Proof.
  split; (eexists; split; [by vm_compute | by intros [=]]).
Qed.

(** ** Invariant and absence of panics *)

(** C8. A board built by [NewBoard size], [size >= 1], is a [size] x
    [size] square of Empty cells with its ko unset, and after every
    sequence of [PlaceStone] calls (accepted or rejected; every prefix of
    a sequence is a sequence) the grid is still a [size] x [size] square
    of colours and the ko field is unset or a point of the grid. *)
Theorem C8_board_invariant (size : Z) :
  1 <= size <= max_int ->
  exists b0, NewBoard size = Done b0 /\
    length (board b0) = Z.to_nat size /\
    Forall (fun row => length row = Z.to_nat size) (board b0) /\
    (forall p, cell b0 p = color.Empty) /\
    ko b0 = None /\
    forall ms, exists b, play b0 ms = Done b /\
      length (board b) = Z.to_nat size /\
      Forall (fun row => length row = Z.to_nat size) (board b) /\
      ko_ok b.
Proof.
  intros Hsize. eexists. split; [by apply NewBoard_spec|].
  destruct (NewBoard_inv size Hsize) as [Hinv Hempty].
  pose proof Hinv as ((_ & _ & Hrows) & Hh & _).
  rewrite Hh in Hrows. split_and!; try done.
  intros ms. destruct (play_inv _ ms _ Hinv) as (b & Hplay & Hb).
  exists b. split; [done|].
  destruct Hb as ((_ & _ & Hrows') & Hh' & Hko'). rewrite Hh' in Hrows'.
  by split_and!.
Qed.

Lemma C8_witness :
  exists b0, NewBoard 3 = Done b0 /\
    length (board b0) = Z.to_nat 3 /\
    Forall (fun row => length row = Z.to_nat 3) (board b0) /\
    (forall p, cell b0 p = color.Empty) /\
    ko b0 = None /\
    forall ms, exists b, play b0 ms = Done b /\
      length (board b) = Z.to_nat 3 /\
      Forall (fun row => length row = Z.to_nat 3) (board b) /\
      ko_ok b.
Proof. apply (C8_board_invariant 3). by vm_compute. Defined.

(** C10. On a board built by [NewBoard] with a positive size, after any
    sequence of [PlaceStone] calls, a further [PlaceStone] call returns:
    it does not panic (nor, in the model, exhaust the fuel of the
    traversal).  The type assertion of the traversal cannot fail on any
    board at all: every element of the queue is a point. *)
Theorem C10_no_panic (size : Z) (ms : list Move) (m : Move) :
  1 <= size <= max_int ->
  (exists b0 b r, NewBoard size = Done b0 /\ play b0 ms = Done b /\
                  PlaceStone b m = Done r) /\
  (forall (b : Board) (p : Point), capturedStones b p <> Panic NotAPoint) /\
  (forall (b : Board) (c : Color) (fuel : nat) (queue : list Point)
          (expanded : gmap Point bool),
     capturedStones_loop fuel b c (VPoint <$> queue) expanded
     <> Panic NotAPoint).
Proof.
  intros Hsize. split_and!.
  - destruct (NewBoard_inv size Hsize) as [Hinv _].
    destruct (play_inv _ ms _ Hinv) as (b & Hplay & Hb).
    destruct (PlaceStone_inv _ b m Hb) as (b' & l & e & HP & _).
    eexists _, b, _. split; [by apply NewBoard_spec|]. by split.
  - apply capturedStones_no_NotAPoint.
  - intros b c fuel queue expanded. apply capturedStones_loop_points.
    apply Forall_fmap, Forall_forall. intros q _. by exists q.
Qed.

Lemma C10_witness :
  (exists b0 b r, NewBoard 3 = Done b0 /\
                  play b0 crowded3_moves = Done b /\
                  PlaceStone b (stone color.Black 1 0) = Done r) /\
  (forall (b : Board) (p : Point), capturedStones b p <> Panic NotAPoint) /\
  (forall (b : Board) (c : Color) (fuel : nat) (queue : list Point)
          (expanded : gmap Point bool),
     capturedStones_loop fuel b c (VPoint <$> queue) expanded
     <> Panic NotAPoint).
Proof.
  apply (C10_no_panic 3 crowded3_moves (stone color.Black 1 0)).
  by vm_compute.
Defined.

(** ** Calls to the analyzer *)

Lemma PlaceStone_analyzed_rejected (b : Board) (m : Move) :
  wf b ->
  inb b (move.Point m) = false \/ cell b (move.Point m) <> color.Empty ->
  PlaceStone_analyzed b m = Done (set_ko b None, []).
Proof.
  intros Hwf Hcase. unfold PlaceStone_analyzed.
  rewrite (inBounds_wf (set_ko b None) _ Hwf), bind_Done.
  change (inb (set_ko b None) (move.Point m)) with (inb b (move.Point m)).
  destruct (inb b (move.Point m)) eqn:Hp; [|done].
  destruct Hcase as [?|Hc]; [done|]. cbn [negb].
  rewrite (colorAt_wf (set_ko b None) _ Hwf Hp), bind_Done.
  change (cell (set_ko b None) (move.Point m)) with (cell b (move.Point m)).
  by rewrite decide_True.
Qed.

Lemma PlaceStone_analyzed_empty (b : Board) (m : Move) :
  wf b -> inb b (move.Point m) = true ->
  cell b (move.Point m) = color.Empty ->
  PlaceStone_analyzed b m =
  Done (tentative b m,
        filter (fun p => inb b p = true) (getNeighbors (move.Point m))
        ++ (if decide (length (captures b m) = 0%nat)
            then [move.Point m] else [])).
Proof.
  intros Hwf Hp Hc.
  destruct (tentative_spec b m Hwf Hp) as (Htent & Hwf1 & Hh1 & _).
  destruct (captures_spec b m Hwf Hp) as (Htr & _).
  assert (Hp1 : inb (tentative b m) (move.Point m) = true)
    by by rewrite (inb_same_height b).
  destruct (capturedStones_total _ _ Hwf1 Hp1) as [Hown _].
  unfold PlaceStone_analyzed.
  rewrite (inBounds_wf (set_ko b None) _ Hwf), bind_Done.
  change (inb (set_ko b None) (move.Point m)) with (inb b (move.Point m)).
  rewrite Hp. cbn [negb].
  rewrite (colorAt_wf (set_ko b None) _ Hwf Hp), bind_Done.
  change (cell (set_ko b None) (move.Point m)) with (cell b (move.Point m)).
  rewrite decide_False by (intros H; by apply H).
  rewrite Htent, bind_Done, Htr, bind_Done. cbn [fst snd].
  destruct (decide (length (captures b m) = 0%nat)).
  - by rewrite Hown, bind_Done.
  - by rewrite app_nil_r.
Qed.

(** C9, as the code has it.  The calls [PlaceStone] makes to the analyzer
    are, in this order and each once: one on every neighbour of the
    placed point that lies on the grid, whatever its colour, and then,
    when and only when these calls captured nothing, one on the placed
    point itself, which holds the colour of the move; a call rejected as
    out of bounds or occupied makes none.  Every point passed lies on the
    grid, so the analyzer never reads outside it; a point passed may be
    Empty, and then the analyzer returns [nil] without expanding
    anything. *)
Theorem C9_analyzer_called_on_grid_points (b : Board) (m : Move) :
  wf b ->
  exists b1 calls, PlaceStone_analyzed b m = Done (b1, calls) /\
    ((inb b (move.Point m) = true /\ cell b (move.Point m) = color.Empty /\
      setColor (set_ko b None) m = Done b1 /\
      exists captured, findCapturedGroups b1 m = Done captured /\
        calls = filter (fun p => inb b p = true) (getNeighbors (move.Point m))
                ++ (if decide (captured = []) then [move.Point m] else [])) \/
     ((inb b (move.Point m) = false \/ cell b (move.Point m) <> color.Empty) /\
      calls = [])) /\
    (forall p, p ∈ calls ->
       inb b1 p = true /\
       (p ∈ getNeighbors (move.Point m) \/
        (p = move.Point m /\ cell b1 p = move.Color m)) /\
       exists l, capturedStones b1 p = Done l /\
                 (cell b1 p = color.Empty -> l = [])) /\
    (inb b (move.Point m) = true -> cell b (move.Point m) = color.Empty ->
     forall n, n ∈ getNeighbors (move.Point m) -> inb b n = true -> n ∈ calls) /\
    (move.Point m ∈ calls <->
     inb b (move.Point m) = true /\ cell b (move.Point m) = color.Empty /\
     findCapturedGroups b1 m = Done []).
Proof.
  intros Hwf.
  destruct (decide (inb b (move.Point m) = true
                    /\ cell b (move.Point m) = color.Empty)) as [[Hp Hc]|Hrej].
  - rewrite (PlaceStone_analyzed_empty b m Hwf Hp Hc).
    destruct (tentative_spec b m Hwf Hp) as (Hset & Hwf1 & Hh1 & _ & Hcol & _).
    destruct (captures_spec b m Hwf Hp) as (_ & Hcap & _).
    assert (Hself : move.Point m ∉
              filter (fun p => inb b p = true) (getNeighbors (move.Point m))).
    { intros Hin. apply list_elem_of_filter in Hin as [_ Hin].
      apply (getNeighbors_adjacent b _ _ Hwf Hp) in Hin.
      unfold adjacent in Hin. lia. }
    assert (Hlast : (if decide (length (captures b m) = 0%nat)
                     then [move.Point m] else [])
                    = if decide (captures b m = []) then [move.Point m] else []).
    { destruct (captures b m); by simpl. }
    rewrite Hlast.
    eexists _, _. split; [done|]. split_and!.
    + left. split_and!; [done | done | done |]. by exists (captures b m).
    + intros p Hin.
      assert (Hpb : inb (tentative b m) p = true).
      { rewrite (inb_same_height b) by done.
        apply elem_of_app in Hin as [Hin|Hin].
        - by apply list_elem_of_filter in Hin as [? _].
        - destruct (decide (captures b m = [])); [|by apply elem_of_nil in Hin].
          by apply list_elem_of_singleton in Hin as ->. }
      split; [done|]. split.
      * apply elem_of_app in Hin as [Hin|Hin].
        -- left. by apply list_elem_of_filter in Hin as [_ ?].
        -- right. destruct (decide (captures b m = [])); [|by apply elem_of_nil in Hin].
           by apply list_elem_of_singleton in Hin as ->.
      * destruct (capturedStones_total _ _ Hwf1 Hpb) as [Hcs _].
        exists (analysis (tentative b m) p). split; [done|].
        intros He. unfold analysis.
        by rewrite (capturedStones_empty _ _ Hwf1 Hpb He).
    + intros _ _ n Hn Hnb. apply elem_of_app. left.
      by apply list_elem_of_filter.
    + rewrite Hcap. split.
      * intros Hin. split_and!; [done | done |].
        apply elem_of_app in Hin as [Hin|Hin]; [done|].
        destruct (decide (captures b m = [])) as [->|_]; [done|].
        by apply elem_of_nil in Hin.
      * intros (_ & _ & [= ->]). apply elem_of_app. right.
        rewrite decide_True by done. apply list_elem_of_here.
  - assert (Hcase : inb b (move.Point m) = false
                    \/ cell b (move.Point m) <> color.Empty).
    { destruct (inb b (move.Point m)) eqn:Hp; [|by left].
      right. intros Hc. apply Hrej. by split. }
    rewrite (PlaceStone_analyzed_rejected b m Hwf Hcase).
    eexists _, _. split; [done|]. split_and!.
    + by right.
    + intros p Hin. by apply elem_of_nil in Hin.
    + intros Hp Hc. destruct Hrej. by split.
    + split; [by intros ?%elem_of_nil|].
      intros (Hp & Hc & _). destruct Hrej. by split.
Qed.

Lemma C9_witness :
  exists b1 calls,
    PlaceStone_analyzed empty3 (stone color.Black 1 1) = Done (b1, calls) /\
    ((inb empty3 (point.New 1 1) = true /\
      cell empty3 (point.New 1 1) = color.Empty /\
      setColor (set_ko empty3 None) (stone color.Black 1 1) = Done b1 /\
      exists captured,
        findCapturedGroups b1 (stone color.Black 1 1) = Done captured /\
        calls = filter (fun p => inb empty3 p = true)
                  (getNeighbors (point.New 1 1))
                ++ (if decide (captured = []) then [point.New 1 1] else [])) \/
     ((inb empty3 (point.New 1 1) = false \/
       cell empty3 (point.New 1 1) <> color.Empty) /\
      calls = [])) /\
    (forall p, p ∈ calls ->
       inb b1 p = true /\
       (p ∈ getNeighbors (point.New 1 1) \/
        (p = point.New 1 1 /\ cell b1 p = color.Black)) /\
       exists l, capturedStones b1 p = Done l /\
                 (cell b1 p = color.Empty -> l = [])) /\
    (inb empty3 (point.New 1 1) = true ->
     cell empty3 (point.New 1 1) = color.Empty ->
     forall n, n ∈ getNeighbors (point.New 1 1) -> inb empty3 n = true ->
               n ∈ calls) /\
    (point.New 1 1 ∈ calls <->
     inb empty3 (point.New 1 1) = true /\
     cell empty3 (point.New 1 1) = color.Empty /\
     findCapturedGroups b1 (stone color.Black 1 1) = Done []).
Proof.
  apply (C9_analyzer_called_on_grid_points empty3 (stone color.Black 1 1)).
  concrete_wf.
Defined.

(** C9 fails as stated: the first stone played on an empty 3 x 3 board, at
    the centre, makes [PlaceStone] run the analyzer on the Empty point
    (2,1). *)
Lemma C9_counterexample :
  exists b1 calls,
    PlaceStone_analyzed empty3 (stone color.Black 1 1) = Done (b1, calls) /\
    point.New 2 1 ∈ calls /\ cell b1 (point.New 2 1) = color.Empty.
Proof.
  eexists _, _. split; [by vm_compute|]. split; [|by vm_compute].
  apply list_elem_of_here.
Qed.

(** ** Captured stones of a successful placement *)

(** C5, as the code has it.  On a successful [PlaceStone] call the
    analyzer is run once on every neighbour of the placed point that lies
    on the grid (so at most 4 times), not once per group, and the stones
    returned are the concatenation of its results in the order of the
    neighbours.  Each listed point belongs to the group, without liberty,
    of a neighbour of the placed point; every stone of a captured opponent
    group is listed, once for each neighbour of the placed point the group
    contains: a group that touches the placed stone on two sides is listed
    twice. *)
Theorem C5_captures_concatenated_per_neighbour
    (b b' : Board) (m : Move) (l : list Point) :
  wf b -> PlaceStone b m = Done (b', l, None) ->
  let b1 := tentative b m in
  let calls := filter (fun p => inb b p = true) (getNeighbors (move.Point m)) in
  findCapturedGroups_traced b1 m = Done (l, calls) /\
  (length calls <= 4)%nat /\
  l = concat (analysis b1 <$> calls) /\
  (forall n, n ∈ calls ->
     capturedStones b1 n = Done (analysis b1 n) /\ NoDup (analysis b1 n)) /\
  (forall q, q ∈ l ->
     exists n, n ∈ calls /\ cell b1 n <> color.Empty /\
               ~ has_liberty b1 n /\ group b1 n q) /\
  (forall n q, n ∈ calls -> cell b1 n <> color.Empty ->
     cell b1 n <> move.Color m -> ~ has_liberty b1 n -> group b1 n q ->
     q ∈ l).
Proof.
  intros Hwf HP b1 calls.
  destruct (PlaceStone_success b b' m l Hwf HP) as (Hp & Hc & -> & _).
  destruct (tentative_spec b m Hwf Hp) as (_ & Hwf1 & Hh1 & _).
  destruct (captures_spec b m Hwf Hp) as (Htr & _ & Hcat).
  assert (Hcall : forall n, n ∈ calls -> inb b1 n = true).
  { intros n Hn. apply list_elem_of_filter in Hn as [Hn _].
    unfold b1. by rewrite (inb_same_height b). }
  split_and!; try done.
  - unfold calls. etrans; [apply length_filter|]. simpl. lia.
  - intros n Hn.
    destruct (capturedStones_total b1 n Hwf1 (Hcall n Hn))
      as [Hcs [[E _]|(_ & _ & Hnd & _)]]; (split; [done|]);
      [rewrite E; apply NoDup_nil_2 | done].
  - intros q Hq. rewrite Hcat in Hq.
    apply list_elem_of_In, in_concat in Hq as (l0 & Hl0 & Hq).
    apply list_elem_of_In, list_elem_of_fmap in Hl0 as (n & -> & Hn).
    apply list_elem_of_In in Hq. exists n. split; [done|].
    destruct (capturedStones_total b1 n Hwf1 (Hcall n Hn))
      as [_ [[E _]|(Hne & Hno & _ & Hg)]].
    + fold b1 in Hq. rewrite E in Hq. by apply elem_of_nil in Hq.
    + split_and!; [done | done | by apply Hg].
  - intros n q Hn Hne _ Hno Hg. rewrite Hcat.
    apply list_elem_of_In, in_concat. exists (analysis b1 n). split.
    + apply list_elem_of_In, list_elem_of_fmap. by exists n.
    + apply list_elem_of_In.
      destruct (capturedStones_total b1 n Hwf1 (Hcall n Hn))
        as [_ [[_ [?|?]]|(_ & _ & _ & Hg')]]; [done | done | by apply Hg'].
Qed.

Lemma C5_witness :
  let b1 := tentative corner3 (stone color.Black 0 0) in
  let calls := filter (fun p => inb corner3 p = true)
                 (getNeighbors (point.New 0 0)) in
  findCapturedGroups_traced b1 (stone color.Black 0 0)
  = Done ([point.New 0 1; point.New 1 0; point.New 1 1;
           point.New 0 1; point.New 1 0; point.New 1 1], calls) /\
  (length calls <= 4)%nat /\
  [point.New 0 1; point.New 1 0; point.New 1 1;
   point.New 0 1; point.New 1 0; point.New 1 1]
  = concat (analysis b1 <$> calls) /\
  (forall n, n ∈ calls ->
     capturedStones b1 n = Done (analysis b1 n) /\ NoDup (analysis b1 n)) /\
  (forall q, q ∈ [point.New 0 1; point.New 1 0; point.New 1 1;
                  point.New 0 1; point.New 1 0; point.New 1 1] ->
     exists n, n ∈ calls /\ cell b1 n <> color.Empty /\
               ~ has_liberty b1 n /\ group b1 n q) /\
  (forall n q, n ∈ calls -> cell b1 n <> color.Empty ->
     cell b1 n <> color.Black -> ~ has_liberty b1 n -> group b1 n q ->
     q ∈ [point.New 0 1; point.New 1 0; point.New 1 1;
          point.New 0 1; point.New 1 0; point.New 1 1]).
Proof.
  apply (C5_captures_concatenated_per_neighbour corner3
           (mkBoard [ [color.Black; color.Empty; color.Black];
                      [color.Empty; color.Empty; color.Black];
                      [color.Black; color.Black; color.Empty] ] None)
           (stone color.Black 0 0)
           [point.New 0 1; point.New 1 0; point.New 1 1;
            point.New 0 1; point.New 1 0; point.New 1 1]).
  - concrete_wf.
  - by vm_compute.
Defined.

(** C5 fails as stated: Black's capture at the corner (0,0) of the bent
    white group of three succeeds, the analyzer is run on (1,0) and on
    (0,1), two stones of that one group, and the returned list holds each
    captured stone twice. *)
Lemma C5_counterexample :
  exists b' l,
    PlaceStone corner3 (stone color.Black 0 0) = Done (b', l, None) /\
    ~ NoDup l /\
    findCapturedGroups_traced (tentative corner3 (stone color.Black 0 0))
      (stone color.Black 0 0) = Done (l, [point.New 1 0; point.New 0 1]) /\
    analysis (tentative corner3 (stone color.Black 0 0)) (point.New 1 0)
    = analysis (tentative corner3 (stone color.Black 0 0)) (point.New 0 1).
Proof.
  eexists _, _. split; [by vm_compute|]. split_and!.
  - intros Hnd. inversion Hnd as [|? ? Hnin _]. apply Hnin. repeat constructor.
  - by vm_compute.
  - by vm_compute.
Qed.

(** ** Successful placements *)

(** The grid a successful call leaves: the captured points are Empty, the
    placed point, unless it is among them, holds the colour of the move,
    and every other cell is as before. *)
Lemma PlaceStone_success_grid (b b' : Board) (m : Move) (l : list Point) :
  wf b -> PlaceStone b m = Done (b', l, None) ->
  wf b' /\ height b' = height b /\
  ko b' = match l with [_] => Some (move.Point m) | _ => None end /\
  (forall q, q ∈ l -> inb b q = true) /\
  forall q, cell b' q =
            if decide (q ∈ l) then color.Empty
            else if decide (q = move.Point m) then move.Color m
            else cell b q.
Proof.
  intros Hwf HP.
  destruct (PlaceStone_success b b' m l Hwf HP) as (Hp & Hc & -> & -> & _).
  destruct (tentative_spec b m Hwf Hp) as (_ & _ & _ & _ & Hcol & Hoth).
  destruct (committed_spec b m Hwf Hp) as (_ & Hwf' & Hh' & Hko' & Hcell).
  split_and!; [done | done | done | |].
  - intros q Hq. by apply (captures_inb b m q Hwf Hp).
  - intros q. rewrite Hcell. destruct (decide (q ∈ captures b m)); [done|].
    destruct (decide (q = move.Point m)) as [->|Hne]; [done | by apply Hoth].
Qed.

(** The scenario of the specification: the white stone at (1,1) is taken
    by the fourth black stone. *)
Lemma capture_scenario :
  exists b', PlaceStone atari3 (stone color.Black 1 2)
             = Done (b', [point.New 1 1], None) /\
             cell b' (point.New 1 1) = color.Empty /\
             cell b' (point.New 1 2) = color.Black.
Proof. eexists. split; [by vm_compute|]. split; by vm_compute. Qed.

(** A single captured stone is a neighbour of the placed point. *)
Lemma captures_single (b : Board) (m : Move) (s : Point) :
  wf b -> inb b (move.Point m) = true -> captures b m = [s] ->
  s ∈ getNeighbors (move.Point m) /\ s <> move.Point m.
Proof.
  intros Hwf Hp Hs.
  destruct (tentative_spec b m Hwf Hp) as (_ & Hwf1 & Hh1 & _).
  destruct (captures_spec b m Hwf Hp) as (_ & _ & Hcat).
  assert (Hin : s ∈ captures b m) by (rewrite Hs; apply list_elem_of_here).
  rewrite Hcat in Hin.
  apply list_elem_of_In, in_concat in Hin as (l0 & Hl0 & Hin).
  apply list_elem_of_In, list_elem_of_fmap in Hl0 as (n & -> & Hn).
  apply list_elem_of_In in Hin.
  apply list_elem_of_filter in Hn as [Hnb Hn].
  assert (Hnb1 : inb (tentative b m) n = true)
    by by rewrite (inb_same_height b).
  assert (Hnn : n ∈ analysis (tentative b m) n).
  { destruct (capturedStones_total _ n Hwf1 Hnb1)
      as [_ [[E _]|(_ & _ & _ & Hg)]].
    - rewrite E in Hin. by apply elem_of_nil in Hin.
    - apply Hg. constructor. }
  assert (Hns : n ∈ captures b m).
  { rewrite Hcat. apply list_elem_of_In, in_concat.
    exists (analysis (tentative b m) n). split.
    - apply list_elem_of_In, list_elem_of_fmap. exists n. split; [done|].
      by apply list_elem_of_filter.
    - by apply list_elem_of_In. }
  rewrite Hs in Hns. apply list_elem_of_singleton in Hns as ->.
  split; [done|].
  apply (getNeighbors_adjacent b _ _ Hwf Hp) in Hn. unfold adjacent in Hn.
  intros ->. lia.
Qed.

(** ** Ko *)

(** C7. Let White's move at [Q] capture exactly the stone at [P].
    - If Black replays at [P] at once and that would take exactly the
      white stone at [Q], the call fails with the ko error and the grid
      is the grid White's move left.
    - If Black first plays a legal move elsewhere that captures nothing,
      the capture at [P] then succeeds.
    - The restriction lasts one call: whatever the call, the ko field it
      leaves is unset or the point just played, never the ko it found;
      even the rejected recapture uses the restriction up, and the same
      move repeated at once succeeds. *)
Theorem C7_ko_lasts_one_attempt (b0 b1 : Board) (P Q : Point) :
  wf b0 ->
  PlaceStone b0 (move.NewMove color.White Q) = Done (b1, [P], None) ->
  let recapture := move.NewMove color.Black P in
  (findCapturedGroups (tentative b1 recapture) recapture = Done [Q] ->
   exists b', PlaceStone b1 recapture = Done (b', [], Some (ErrIllegalKo P)) /\
              board b' = board b1 /\
              exists b'', PlaceStone b' recapture = Done (b'', [Q], None)) /\
  (forall (R : Point) (b2 : Board) (cs : list Point),
     R <> P ->
     PlaceStone b1 (move.NewMove color.Black R) = Done (b2, [], None) ->
     findCapturedGroups (tentative b2 recapture) recapture = Done cs ->
     cs <> [] ->
     exists b3, PlaceStone b2 recapture = Done (b3, cs, None)) /\
  (forall (b b' : Board) (m : Move) (l : list Point) (e : option error),
     wf b -> PlaceStone b m = Done (b', l, e) ->
     ko b' = None \/ ko b' = Some (move.Point m)).
Proof.
  intros Hwf0 HW recapture.
  destruct (PlaceStone_success_grid b0 b1 _ [P] Hwf0 HW)
    as (Hwf1 & Hh1 & Hko1 & HinP & Hcell1).
  cbn [move.Point] in Hko1.
  assert (HP : inb b1 P = true).
  { rewrite (inb_same_height b0) by done. apply HinP, list_elem_of_here. }
  assert (HcP : cell b1 P = color.Empty).
  { rewrite Hcell1. rewrite decide_True; [done | apply list_elem_of_here]. }
  split_and!.
  - intros Hcap.
    assert (Ecap : captures b1 recapture = [Q])
      by (unfold captures; by rewrite Hcap).
    destruct (captures_single b1 recapture Q Hwf1 HP Ecap) as [_ HQP].
    exists (mkBoard (board b1) (Some P)). split_and!; [|done|].
    + rewrite (PlaceStone_empty b1 recapture Hwf1 HP HcP), Ecap.
      destruct (decide ([Q] = [] /\ _)) as [[? _]|_]; [done|].
      by rewrite decide_True.
    + eexists.
      rewrite (PlaceStone_empty (mkBoard (board b1) (Some P)) recapture
                 Hwf1 HP HcP).
      change (captures (mkBoard (board b1) (Some P)) recapture)
        with (captures b1 recapture).
      rewrite Ecap.
      destruct (decide ([Q] = [] /\ _)) as [[? _]|_]; [done|].
      rewrite decide_False; [done|]. cbn [ko move.Point recapture].
      intros [= ->]. by apply HQP.
  - intros R b2 cs HR HB Hcap Hcs.
    destruct (PlaceStone_success_grid b1 b2 _ [] Hwf1 HB)
      as (Hwf2 & Hh2 & Hko2 & _ & Hcell2).
    assert (HP2 : inb b2 P = true) by by rewrite (inb_same_height b1).
    assert (HcP2 : cell b2 P = color.Empty).
    { rewrite Hcell2. rewrite decide_False by apply not_elem_of_nil.
      cbn [move.Point]. by rewrite decide_False by (intros ->; by apply HR). }
    assert (Ecap : captures b2 recapture = cs)
      by (unfold captures; by rewrite Hcap).
    exists (committed b2 recapture).
    rewrite (PlaceStone_empty b2 recapture Hwf2 HP2 HcP2), Ecap.
    destruct (decide (cs = [] /\ _)) as [[? _]|_]; [done|].
    destruct cs as [|st [|st' rest]]; [done | | done].
    rewrite decide_False; [done|]. by rewrite Hko2.
  - intros b b' m l e Hwf HPS.
    destruct (PlaceStone_total b m Hwf) as (b'' & l' & e' & HP' & _ & _ & Hko).
    rewrite HPS in HP'. injection HP' as <- <- <-.
    destruct Hko as [?|[? _]]; auto.
Qed.

Lemma C7_witness :
  (exists b', PlaceStone ko4 (stone color.Black 2 1)
              = Done (b', [], Some (ErrIllegalKo (point.New 2 1))) /\
              board b' = board ko4 /\
              exists b'', PlaceStone b' (stone color.Black 2 1)
                          = Done (b'', [point.New 1 1], None)) /\
  (exists b2 b3,
     PlaceStone ko4 (stone color.Black 0 3) = Done (b2, [], None) /\
     PlaceStone b2 (stone color.Black 2 1) = Done (b3, [point.New 1 1], None)).
Proof.
  assert (Hwf : wf ko4_before) by concrete_wf.
  assert (HW : PlaceStone ko4_before (move.NewMove color.White (point.New 1 1))
               = Done (ko4, [point.New 2 1], None)) by by vm_compute.
  destruct (C7_ko_lasts_one_attempt ko4_before ko4 (point.New 2 1)
              (point.New 1 1) Hwf HW) as (Hko & Hfree & _).
  split.
  - apply Hko. by vm_compute.
  - assert (HR : PlaceStone ko4 (stone color.Black 0 3)
                 = Done (tentative ko4 (stone color.Black 0 3), [], None))
      by by vm_compute.
    destruct (Hfree (point.New 0 3)
                (tentative ko4 (stone color.Black 0 3)) [point.New 1 1])
      as [b3 H3]; [done | exact HR | by vm_compute | done |].
    by eexists _, b3.
Defined.

(** ** Suicide *)

(** Where the code does report a suicide: the analysis of the neighbours
    returned nothing and the group of the placed stone has no liberty.
    The board is then left as before the call, with the ko unset. *)
Lemma PlaceStone_suicide (b : Board) (m : Move) :
  wf b -> inb b (move.Point m) = true ->
  cell b (move.Point m) = color.Empty ->
  captures b m = [] ->
  analysis (tentative b m) (move.Point m) <> [] ->
  PlaceStone b m = Done (set_ko b None, [], Some (ErrSuicidal (move.Point m))).
Proof.
  intros Hwf Hp Hc Hcap Hown.
  rewrite (PlaceStone_empty b m Hwf Hp Hc). by rewrite decide_True.
Qed.

(** C4, evaluated where the code departs from it.  The position
    [crowded3] arises from six alternating moves on the empty 3 x 3
    board.  Black's stone at the Empty point (1,0) joins the black stone
    at (0,0); no white stone is captured (the two white groups next to
    (1,0) keep a liberty and every stone the placement lists is black) and
    the black group of two has no liberty.  [PlaceStone] reports no
    suicide: it returns the two black stones as captured, with no error,
    and takes them off the board. *)
Theorem C4_group_suicide_not_rejected :
  let m := stone color.Black 1 0 in
  play empty3 crowded3_moves = Done crowded3 /\
  inb crowded3 (point.New 1 0) = true /\
  cell crowded3 (point.New 1 0) = color.Empty /\
  analysis (tentative crowded3 m) (point.New 2 0) = [] /\
  analysis (tentative crowded3 m) (point.New 1 1) = [] /\
  Forall (fun q => cell (tentative crowded3 m) q = color.Black)
         (captures crowded3 m) /\
  ~ has_liberty (tentative crowded3 m) (point.New 1 0) /\
  exists b',
    PlaceStone crowded3 m
    = Done (b', [point.New 0 0; point.New 1 0], None) /\
    cell b' (point.New 0 0) = color.Empty /\
    b' <> crowded3 /\ b' <> set_ko crowded3 None.
Proof.
  intros m. split_and!; try by vm_compute.
  - vm_compute. by repeat constructor.
  - assert (Hwf : wf (tentative crowded3 m)) by concrete_wf.
    destruct (capturedStones_total (tentative crowded3 m) (point.New 1 0) Hwf)
      as [_ [[E _]|(_ & Hno & _)]]; [by vm_compute | | done].
    by vm_compute in E.
  - eexists. split; [by vm_compute|]. split; [by vm_compute|].
    split; by intros [=].
Qed.

(** C6, evaluated where the code departs from it.  In the same position
    the call succeeds, and at return the target cell (1,0) does not hold
    the colour of the move: the placed stone is among the stones the call
    captured, and is Empty. *)
Theorem C6_target_cell_cleared_on_success :
  let m := stone color.Black 1 0 in
  exists b' l,
    PlaceStone crowded3 m = Done (b', l, None) /\
    move.Point m ∈ l /\
    cell b' (move.Point m) = color.Empty /\
    cell b' (move.Point m) <> move.Color m.
Proof.
  intros m. eexists _, _. split; [by vm_compute|].
  split; [by repeat constructor|]. split; by vm_compute.
Qed.


(** * Further properties of the board *)

(** ** Groups *)

Lemma adjacent_sym (p q : Point) : adjacent p q -> adjacent q p.
Proof. unfold adjacent. lia. Qed.

Lemma adjacent_ne (p q : Point) : adjacent p q -> p <> q.
Proof. unfold adjacent. intros H ->. lia. Qed.

Lemma group_trans (b : Board) (p q r : Point) :
  group b p q -> group b q r -> group b p r.
Proof.
  intros Hpq Hqr. induction Hqr as [|r s Hqr IH Hadj Hs Hc]; [done|].
  apply (group_step b p r s); [done | done | done |].
  rewrite Hc. by apply group_color.
Qed.

Lemma group_sym (b : Board) (p q : Point) :
  inb b p = true -> group b p q -> group b q p.
Proof.
  intros Hp Hpq. induction Hpq as [|q r Hpq IH Hadj Hr Hc]; [constructor|].
  apply (group_trans b r q p); [|done].
  apply (group_step b r r q); [constructor | by apply adjacent_sym | |].
  - by apply (group_inb b p).
  - rewrite Hc. by apply group_color.
Qed.

Lemma has_liberty_group (b : Board) (p q : Point) :
  group b p q -> has_liberty b q -> has_liberty b p.
Proof.
  intros Hpq (r & q' & Hg & Hadj & Hr & Hc).
  exists r, q'. split_and!; try done. by apply (group_trans b p q q').
Qed.

(** The group of a stone is the group of every stone in it. *)
Lemma group_same (b : Board) (p q r : Point) :
  inb b p = true -> group b p q -> (group b p r <-> group b q r).
Proof.
  intros Hp Hpq. split; intros H.
  - apply (group_trans b q p r); [by apply group_sym | done].
  - by apply (group_trans b p q r).
Qed.

Lemma analysis_nonempty (b : Board) (p : Point) :
  wf b -> inb b p = true ->
  analysis b p <> [] <-> cell b p <> color.Empty /\ ~ has_liberty b p.
Proof.
  intros Hwf Hp.
  destruct (capturedStones_total b p Hwf Hp)
    as [_ [[E [Hc|Hl]]|(Hc & Hno & _ & Hg)]].
  - rewrite E. split; [done | by intros [? _]].
  - rewrite E. split; [done | by intros [_ ?]].
  - split; [done|]. intros _ E.
    assert (H : p ∈ analysis b p) by (apply Hg; constructor).
    rewrite E in H. by apply elem_of_nil in H.
Qed.

Lemma analysis_group (b : Board) (p q : Point) :
  wf b -> inb b p = true ->
  q ∈ analysis b p <->
  cell b p <> color.Empty /\ ~ has_liberty b p /\ group b p q.
Proof.
  intros Hwf Hp.
  destruct (capturedStones_total b p Hwf Hp)
    as [_ [[E [Hc|Hl]]|(Hc & Hno & _ & Hg)]].
  - rewrite E. split; [by intros ?%elem_of_nil | by intros [? _]].
  - rewrite E. split; [by intros ?%elem_of_nil | by intros (_ & ? & _)].
  - rewrite Hg. split; [done | by intros (_ & _ & ?)].
Qed.

(** X1. The analyzer's answer does not depend on the stone of the group
    it is started from: started on two stones of one group it returns the
    same stones, up to their order. *)
Theorem X1_analyzer_independent_of_start (b : Board) (p q : Point) :
  wf b -> inb b p = true -> group b p q ->
  exists l1 l2, capturedStones b p = Done l1 /\ capturedStones b q = Done l2 /\
                l1 ≡ₚ l2.
Proof.
  intros Hwf Hp Hpq.
  pose proof (group_inb b p q Hp Hpq) as Hq.
  pose proof (group_color b p q Hpq) as Hcol.
  destruct (capturedStones_total b p Hwf Hp) as [Hcp Hdp].
  destruct (capturedStones_total b q Hwf Hq) as [Hcq Hdq].
  exists (analysis b p), (analysis b q). split_and!; [done | done |].
  apply NoDup_Permutation.
  - destruct Hdp as [[-> _]|(_ & _ & ? & _)]; [apply NoDup_nil_2 | done].
  - destruct Hdq as [[-> _]|(_ & _ & ? & _)]; [apply NoDup_nil_2 | done].
  - intros r. rewrite !analysis_group by done. rewrite Hcol.
    split; intros (Hc & Hno & Hg); split_and!; try done.
    + intros Hl. apply Hno. by apply (has_liberty_group b p q).
    + by apply (group_same b p q r).
    + intros Hl. apply Hno.
      apply (has_liberty_group b q p); [by apply group_sym | done].
    + by apply (group_same b p q r).
Qed.

Lemma X1_witness :
  exists l1 l2,
    capturedStones corner3 (point.New 1 0) = Done l1 /\
    capturedStones corner3 (point.New 0 1) = Done l2 /\ l1 ≡ₚ l2.
Proof.
  apply (X1_analyzer_independent_of_start corner3 (point.New 1 0) (point.New 0 1)).
  - concrete_wf.
  - reflexivity.
  - apply (group_step _ _ (point.New 1 1)); [|by vm_compute..].
    apply (group_step _ _ (point.New 1 0)); [constructor|by vm_compute..].
Defined.

(** ** The outcomes of [PlaceStone] *)

Lemma PlaceStone_cases (b : Board) (m : Move) :
  wf b ->
  let pt := move.Point m in
  (inb b pt = false /\
   PlaceStone b m
   = Done (set_ko b None, [], Some (ErrOutOfBounds pt (height b) (height b)))) \/
  (inb b pt = true /\ cell b pt <> color.Empty /\
   PlaceStone b m = Done (set_ko b None, [], Some (ErrOccupied pt))) \/
  (inb b pt = true /\ cell b pt = color.Empty /\
   captures b m = [] /\ analysis (tentative b m) pt <> [] /\
   PlaceStone b m = Done (set_ko b None, [], Some (ErrSuicidal pt))) \/
  (inb b pt = true /\ cell b pt = color.Empty /\
   (exists st, captures b m = [st] /\ ko b = Some st) /\
   PlaceStone b m
   = Done (mkBoard (board b) (Some pt), [], Some (ErrIllegalKo pt))) \/
  (inb b pt = true /\ cell b pt = color.Empty /\
   (captures b m = [] -> analysis (tentative b m) pt = []) /\
   (forall st, captures b m = [st] -> ko b <> Some st) /\
   PlaceStone b m = Done (committed b m, captures b m, None)).
Proof.
  intros Hwf pt. destruct (inb b pt) eqn:Hp;
    [|left; split; [done | by apply PlaceStone_out_of_bounds]].
  right. destruct (decide (cell b pt = color.Empty)) as [Hc|Hc];
    [|left; split_and!; [done | done | by apply PlaceStone_occupied]].
  right. rewrite (PlaceStone_empty b m Hwf Hp Hc). fold pt.
  destruct (decide (captures b m = [] /\ _)) as [[E Hown]|Hsu];
    [left; by split_and!|].
  right.
  assert (Hown : captures b m = [] -> analysis (tentative b m) pt = []).
  { intros E. destruct (decide (analysis (tentative b m) pt = []))
      as [?|Hne]; [done|]. by destruct Hsu. }
  destruct (captures b m) as [|st [|st' rest]] eqn:E.
  - right. split_and!; try done.
  - destruct (decide (ko b = Some st)) as [Hk|Hk].
    + left. split_and!; try done. by exists st.
    + right. split_and!; try done. by intros ? [= <-].
  - right. split_and!; try done.
Qed.

Lemma PlaceStone_rejected_grid
    (b b' : Board) (m : Move) (l : list Point) (e : error) :
  wf b -> PlaceStone b m = Done (b', l, Some e) ->
  l = [] /\ board b' = board b.
Proof.
  intros Hwf H.
  destruct (PlaceStone_cases b m Hwf)
    as [(_ & E)|[(_ & _ & E)|[(_ & _ & _ & _ & E)|[(_ & _ & _ & E)
        |(_ & _ & _ & _ & E)]]]];
    rewrite E in H; by simplify_eq.
Qed.

(** X2. A call that returns an error, whichever of the four, returns no
    stones and leaves the grid exactly as it found it; the ko field it
    leaves is unset, except after a ko rejection, where it is the point
    of the rejected move. *)
Theorem X2_rejected_call_keeps_grid
    (b b' : Board) (m : Move) (l : list Point) (e : error) :
  wf b -> PlaceStone b m = Done (b', l, Some e) ->
  l = [] /\ board b' = board b /\
  ko b' = match e with
          | ErrIllegalKo _ => Some (move.Point m)
          | _ => None
          end.
Proof.
  intros Hwf H.
  destruct (PlaceStone_cases b m Hwf)
    as [(_ & E)|[(_ & _ & E)|[(_ & _ & _ & _ & E)|[(_ & _ & _ & E)
        |(_ & _ & _ & _ & E)]]]];
    rewrite E in H; by simplify_eq.
Qed.

Lemma X2_witness :
  ([] : list Point) = [] /\
  board (mkBoard (board ko4) (Some (point.New 2 1))) = board ko4 /\
  ko (mkBoard (board ko4) (Some (point.New 2 1)))
  = Some (move.Point (stone color.Black 2 1)).
Proof.
  apply (X2_rejected_call_keeps_grid ko4 _ (stone color.Black 2 1) []
           (ErrIllegalKo (point.New 2 1))).
  - concrete_wf.
  - by vm_compute.
Defined.

(** X3. What decides the outcome of a call.  The bounds error is returned
    exactly for a point off the grid; the occupied error exactly for an
    occupied point of the grid; on an Empty point of the grid, the
    suicide error exactly when the analysis of the neighbours returned
    nothing and the group of the placed stone has no liberty, the ko
    error exactly when it returned the single stone the ko field held,
    and no error otherwise, with the stones that analysis returned. *)
Theorem X3_outcome_conditions (b : Board) (m : Move) :
  wf b ->
  let pt := move.Point m in
  let t := tentative b m in
  exists b' l e, PlaceStone b m = Done (b', l, e) /\
    match e with
    | Some (ErrOutOfBounds p cols rows) =>
        p = pt /\ cols = height b /\ rows = height b /\ inb b pt = false
    | Some (ErrOccupied p) =>
        p = pt /\ inb b pt = true /\ cell b pt <> color.Empty
    | Some (ErrSuicidal p) =>
        p = pt /\ inb b pt = true /\ cell b pt = color.Empty /\
        captures b m = [] /\ move.Color m <> color.Empty /\ ~ has_liberty t pt
    | Some (ErrIllegalKo p) =>
        p = pt /\ inb b pt = true /\ cell b pt = color.Empty /\
        exists st, captures b m = [st] /\ ko b = Some st
    | None =>
        inb b pt = true /\ cell b pt = color.Empty /\ l = captures b m /\
        (captures b m = [] -> move.Color m = color.Empty \/ has_liberty t pt) /\
        (forall st, captures b m = [st] -> ko b <> Some st)
    end.
Proof.
  intros Hwf pt t.
  assert (Hown : inb b pt = true ->
            analysis t pt <> [] <->
            move.Color m <> color.Empty /\ ~ has_liberty t pt).
  { intros Hp.
    destruct (tentative_spec b m Hwf Hp) as (_ & Hwf1 & Hh1 & _ & Hcol & _).
    unfold t, pt in *. rewrite analysis_nonempty;
      [by rewrite Hcol | done | by rewrite (inb_same_height b)]. }
  destruct (PlaceStone_cases b m Hwf)
    as [(Hp & E)|[(Hp & Hc & E)|[(Hp & Hc & Hcap & Hsu & E)
        |[(Hp & Hc & Hko & E)|(Hp & Hc & Hsu & Hko & E)]]]];
    rewrite E; eexists _, _, _; (split; [done|]); cbn beta iota.
  - done.
  - done.
  - apply (Hown Hp) in Hsu as [? ?]. by split_and!.
  - done.
  - split_and!; try done. intros Hcap.
    destruct (decide (move.Color m = color.Empty)) as [?|Hne]; [by left|].
    right. destruct (decide (analysis t pt = [])) as [Ha|Ha].
    + destruct (tentative_spec b m Hwf Hp) as (_ & Hwf1 & Hh1 & _ & Hcol & _).
      assert (Hp1 : inb t pt = true) by (unfold t; by rewrite (inb_same_height b)).
      destruct (capturedStones_total t pt Hwf1 Hp1)
        as [_ [[_ [Hc'|?]]|(_ & _ & _ & Hg)]]; [| done |].
      * unfold t, pt in Hc'. by rewrite Hcol in Hc'.
      * assert (H : pt ∈ analysis t pt) by (apply Hg; constructor).
        rewrite Ha in H. by apply elem_of_nil in H.
    + by destruct (Hsu Hcap).
Qed.

Lemma X3_witness :
  let b := ko4 in
  let m := stone color.Black 2 1 in
  let pt := move.Point m in
  let t := tentative b m in
  exists b' l e, PlaceStone b m = Done (b', l, e) /\
    match e with
    | Some (ErrOutOfBounds p cols rows) =>
        p = pt /\ cols = height b /\ rows = height b /\ inb b pt = false
    | Some (ErrOccupied p) =>
        p = pt /\ inb b pt = true /\ cell b pt <> color.Empty
    | Some (ErrSuicidal p) =>
        p = pt /\ inb b pt = true /\ cell b pt = color.Empty /\
        captures b m = [] /\ move.Color m <> color.Empty /\ ~ has_liberty t pt
    | Some (ErrIllegalKo p) =>
        p = pt /\ inb b pt = true /\ cell b pt = color.Empty /\
        exists st, captures b m = [st] /\ ko b = Some st
    | None =>
        inb b pt = true /\ cell b pt = color.Empty /\ l = captures b m /\
        (captures b m = [] -> move.Color m = color.Empty \/ has_liberty t pt) /\
        (forall st, captures b m = [st] -> ko b <> Some st)
    end.
Proof.
  apply (X3_outcome_conditions ko4 (stone color.Black 2 1)). concrete_wf.
Defined.

(** ** The tentative placement *)

Lemma tentative_cell (b : Board) (m : Move) (q : Point) :
  wf b -> inb b (move.Point m) = true ->
  cell (tentative b m) q =
  if decide (q = move.Point m) then move.Color m else cell b q.
Proof.
  intros Hwf Hp.
  destruct (tentative_spec b m Hwf Hp) as (_ & _ & _ & _ & Hcol & Hoth).
  destruct (decide (q = move.Point m)) as [->|Hne]; [done | by apply Hoth].
Qed.

(** The stones of before the placement that hang together still do. *)
Lemma group_tentative (b : Board) (m : Move) (p q : Point) :
  wf b -> inb b (move.Point m) = true ->
  cell b (move.Point m) = color.Empty -> cell b p <> color.Empty ->
  group b p q -> group (tentative b m) p q.
Proof.
  intros Hwf Hpt Hc Hp Hg.
  destruct (tentative_spec b m Hwf Hpt) as (_ & _ & Hh & _).
  assert (Hsame : forall r, cell b r = cell b p -> cell (tentative b m) r = cell b r).
  { intros r Hr. rewrite (tentative_cell b m r Hwf Hpt).
    rewrite decide_False; [done|]. intros ->. congruence. }
  induction Hg as [|q r Hg IH Hadj Hr Hcr]; [constructor|].
  apply (group_step _ p q r); [done | done | by rewrite (inb_same_height b) |].
  by rewrite (Hsame r Hcr), (Hsame p eq_refl).
Qed.

Lemma captures_elem (b : Board) (m : Move) (q : Point) :
  wf b -> inb b (move.Point m) = true ->
  q ∈ captures b m <->
  exists n, adjacent (move.Point m) n /\ inb b n = true /\
            q ∈ analysis (tentative b m) n.
Proof.
  intros Hwf Hp. destruct (captures_spec b m Hwf Hp) as (_ & _ & ->).
  rewrite list_elem_of_In, in_concat. split.
  - intros (l0 & Hl0 & Hq).
    apply list_elem_of_In, list_elem_of_fmap in Hl0 as (n & -> & Hn).
    apply list_elem_of_filter in Hn as [Hnb Hn].
    exists n. split_and!; [|done | by apply list_elem_of_In].
    by apply (getNeighbors_adjacent b _ n Hwf Hp).
  - intros (n & Hadj & Hnb & Hq). exists (analysis (tentative b m) n).
    split; [|by apply list_elem_of_In].
    apply list_elem_of_In, list_elem_of_fmap. exists n. split; [done|].
    apply list_elem_of_filter. split; [done|].
    by apply (getNeighbors_adjacent b _ n Hwf Hp).
Qed.

(** X4. The suicide the code rejects: a stone played on an Empty point of
    the grid all of whose neighbours on the grid are stones of another
    colour, each in a group that keeps a liberty elsewhere.  The call
    returns the suicide error and the board is as before, ko unset. *)
Theorem X4_surrounded_stone_is_suicide (b : Board) (m : Move) :
  wf b -> inb b (move.Point m) = true ->
  cell b (move.Point m) = color.Empty -> move.Color m <> color.Empty ->
  (forall n, adjacent (move.Point m) n -> inb b n = true ->
     cell b n <> color.Empty /\ cell b n <> move.Color m /\
     exists r, liberty b n r /\ r <> move.Point m) ->
  PlaceStone b m
  = Done (set_ko b None, [], Some (ErrSuicidal (move.Point m))).
Proof.
  intros Hwf Hp Hc Hcol Hn.
  destruct (tentative_spec b m Hwf Hp) as (_ & Hwf1 & Hh1 & _).
  assert (Hp1 : inb (tentative b m) (move.Point m) = true)
    by by rewrite (inb_same_height b).
  apply (PlaceStone_suicide b m Hwf Hp Hc).
  - apply elem_of_nil_inv. intros q Hq.
    apply (captures_elem b m q Hwf Hp) in Hq as (n & Hadj & Hnb & Hq).
    destruct (Hn n Hadj Hnb) as (Hne & _ & r & (q' & Hg & Hadj' & Hr & Hcr) & Hrp).
    apply analysis_group in Hq as (_ & Hno & _);
      [|done | by rewrite (inb_same_height b)].
    apply Hno. exists r, q'. split_and!.
    + by apply group_tentative.
    + done.
    + by rewrite (inb_same_height b).
    + rewrite (tentative_cell b m r Hwf Hp). by rewrite decide_False.
  - apply analysis_nonempty; [done | done |].
    rewrite (tentative_cell b m _ Hwf Hp), decide_True by done.
    split; [done|]. intros (r & q & Hg & Hadj & Hr & Hcr).
    assert (Hq : q = move.Point m).
    { clear Hadj. induction Hg as [|q s Hg IH Hadj' Hs Hcs]; [done|].
      subst q. rewrite (inb_same_height b) in Hs by done.
      destruct (Hn s Hadj' Hs) as (_ & Hne & _).
      rewrite !(tentative_cell b m _ Hwf Hp) in Hcs.
      rewrite (decide_True (P := move.Point m = move.Point m)) in Hcs by done.
      rewrite decide_False in Hcs; [done|].
      intros ->. by apply adjacent_ne in Hadj'. }
    subst q. rewrite (inb_same_height b) in Hr by done.
    destruct (Hn r Hadj Hr) as (Hne & _).
    rewrite (tentative_cell b m r Hwf Hp) in Hcr.
    rewrite decide_False in Hcr; [done|].
    intros ->. by apply adjacent_ne in Hadj.
Qed.

Lemma X4_witness :
  PlaceStone eye2 (stone color.Black 0 0)
  = Done (set_ko eye2 None, [], Some (ErrSuicidal (point.New 0 0))).
Proof.
  apply (X4_surrounded_stone_is_suicide eye2 (stone color.Black 0 0)).
  - concrete_wf.
  - reflexivity.
  - reflexivity.
  - done.
  - intros [x y] Hadj Hn. apply inb_spec in Hn. unfold adjacent in Hadj.
    change (height eye2) with 2%nat in Hn. simpl in Hadj, Hn.
    assert ((x = 1 /\ y = 0) \/ (x = 0 /\ y = 1)) as [[-> ->]|[-> ->]] by lia.
    + split_and!; [by vm_compute | by vm_compute |].
      exists (point.New 1 1). split; [|done].
      exists (point.New 1 0). split_and!; [constructor | by vm_compute | done | done].
    + split_and!; [by vm_compute | by vm_compute |].
      exists (point.New 1 1). split; [|done].
      exists (point.New 0 1). split_and!; [constructor | by vm_compute | done | done].
Defined.

(** ** No group without a liberty is left on the board *)

Lemma group_same_grid (b1 b2 : Board) (p q : Point) :
  board b1 = board b2 -> group b1 p q -> group b2 p q.
Proof.
  intros Hb.
  assert (Hcell : forall r, cell b1 r = cell b2 r)
    by (intros r; unfold cell, colorAt; by rewrite Hb).
  assert (Hinb : forall r, inb b1 r = inb b2 r)
    by (intros r; unfold inb, height; by rewrite Hb).
  induction 1 as [|q r Hg IH Hadj Hr Hc]; [constructor|].
  apply (group_step b2 p q r); [done | done | by rewrite <- Hinb |].
  by rewrite <- !Hcell.
Qed.

Lemma alive_same_grid (b1 b2 : Board) :
  board b1 = board b2 -> alive b1 -> alive b2.
Proof.
  intros Hb Halive p Hp Hc.
  assert (Hcell : forall r, cell b1 r = cell b2 r)
    by (intros r; unfold cell, colorAt; by rewrite Hb).
  assert (Hinb : forall r, inb b1 r = inb b2 r)
    by (intros r; unfold inb, height; by rewrite Hb).
  destruct (Halive p) as (r & q & Hg & Hadj & Hr & Hcr);
    [by rewrite Hinb | by rewrite Hcell|].
  exists r, q. split_and!; [by apply (group_same_grid b1) | done | |].
  - by rewrite <- Hinb.
  - by rewrite <- Hcell.
Qed.

(** A stone that stays on the board stays with its whole group. *)
Lemma survivors_group (b b' : Board) (m : Move) (l : list Point) (p q : Point) :
  wf b -> PlaceStone b m = Done (b', l, None) ->
  inb b p = true -> (p ∉ l) ->
  group (tentative b m) p q -> (q ∉ l) /\ group b' p q.
Proof.
  intros Hwf HP Hp Hpl.
  destruct (PlaceStone_success_grid b b' m l Hwf HP)
    as (Hwf' & Hh' & _ & _ & Hcell').
  destruct (PlaceStone_success b b' m l Hwf HP) as (Hpt & Hc & -> & _).
  destruct (tentative_spec b m Hwf Hpt) as (_ & Hwf1 & Hh1 & _).
  assert (Hp1 : inb (tentative b m) p = true) by by rewrite (inb_same_height b).
  assert (Hcell : forall r, r ∉ captures b m -> cell b' r = cell (tentative b m) r).
  { intros r Hr. rewrite Hcell', (tentative_cell b m r Hwf Hpt).
    by rewrite decide_False. }
  assert (Hout : forall r, group (tentative b m) p r -> r ∉ captures b m).
  { intros r Hg Hr.
    apply (captures_elem b m r Hwf Hpt) in Hr as (n & Hadj & Hnb & Hr).
    assert (Hnb1 : inb (tentative b m) n = true)
      by by rewrite (inb_same_height b).
    apply (analysis_group _ n r Hwf1 Hnb1) in Hr as (Hne & Hno & Hgn).
    apply Hpl, (captures_elem b m p Hwf Hpt). exists n.
    split_and!; [done | done |].
    apply (analysis_group _ n p Hwf1 Hnb1). split_and!; [done | done |].
    apply (group_trans _ n r p); [done | by apply group_sym]. }
  intros Hg. split; [by apply Hout|].
  induction Hg as [|q r Hg IH Hadj Hr Hcr]; [constructor|].
  apply (group_step b' p q r); [by apply IH | done | |].
  - rewrite (inb_same_height b) by done.
    by rewrite <- (inb_same_height b (tentative b m)).
  - rewrite !Hcell; [done | done |].
    apply Hout. by apply (group_step _ p q r).
Qed.

Lemma PlaceStone_alive (b b' : Board) (m : Move) (l : list Point)
    (e : option error) :
  wf b -> alive b -> PlaceStone b m = Done (b', l, e) -> alive b'.
Proof.
  intros Hwf Halive HP. destruct e as [e|].
  { destruct (PlaceStone_cases b m Hwf)
      as [(_ & E)|[(_ & _ & E)|[(_ & _ & _ & _ & E)|[(_ & _ & _ & E)
          |(_ & _ & _ & _ & E)]]]];
      rewrite E in HP; simplify_eq; by apply (alive_same_grid b). }
  destruct (PlaceStone_success_grid b b' m l Hwf HP)
    as (Hwf' & Hh' & _ & _ & Hcell').
  destruct (PlaceStone_success b b' m l Hwf HP)
    as (Hpt & Hc & El & _ & Hsu & _).
  destruct (tentative_spec b m Hwf Hpt) as (_ & Hwf1 & Hh1 & _).
  set (t := tentative b m) in *. set (pt := move.Point m) in *.
  assert (Hinb1 : forall r, inb t r = inb b r)
    by (intros r; by apply inb_same_height).
  assert (Hinb' : forall r, inb b' r = inb b r)
    by (intros r; by apply inb_same_height).
  assert (Hcellt : forall r, cell t r = if decide (r = pt) then move.Color m
                                        else cell b r)
    by (intros r; by apply tentative_cell).
  assert (Hcell : forall r, cell b' r = if decide (r ∈ l) then color.Empty
                                        else cell t r)
    by (intros r; by rewrite Hcell', Hcellt).
  assert (Hempty : forall r, cell t r = color.Empty -> cell b' r = color.Empty)
    by (intros r Hr; rewrite Hcell; by destruct (decide (r ∈ l))).
  intros p Hp Hcp. rewrite Hinb' in Hp.
  assert (Hpl : p ∉ l).
  { intros Hin. rewrite Hcell, decide_True in Hcp by done. done. }
  assert (Hcpt : cell t p <> color.Empty).
  { rewrite Hcell, decide_False in Hcp by done. done. }
  assert (Hp1 : inb t p = true) by by rewrite Hinb1.
  destruct (capturedStones_total t p Hwf1 Hp1)
    as [_ [[_ [?|Hlib]]|(_ & Hno & _)]]; [done | |].
  - (* the group has a liberty after the tentative placement *)
    destruct Hlib as (r & q & Hg & Hadj & Hr & Hcr).
    exists r, q. split_and!.
    + by apply (survivors_group b b' m l p q Hwf HP).
    + done.
    + by rewrite Hinb', <- Hinb1.
    + by apply Hempty.
  - destruct (decide (p = pt)) as [->|Hne].
    + (* the placed stone: something was captured next to it *)
      destruct l as [|s l'] eqn:El'.
      { assert (analysis t pt <> []) by by apply analysis_nonempty.
        by destruct (Hsu (eq_sym El)). }
      assert (Hs : s ∈ captures b m) by (rewrite <- El; apply list_elem_of_here).
      apply (captures_elem b m s Hwf Hpt) in Hs as (n & Hadj & Hnb & Hs).
      assert (Hnb1 : inb t n = true) by by rewrite Hinb1.
      apply (analysis_group t n s Hwf1 Hnb1) in Hs as (Hcn & Hnn & _).
      assert (Hn : n ∈ captures b m).
      { apply (captures_elem b m n Hwf Hpt). exists n.
        split_and!; [done | done |].
        apply (analysis_group t n n Hwf1 Hnb1).
        split_and!; [done | done | constructor]. }
      exists n, pt. split_and!; [constructor | done | by rewrite Hinb' |].
      rewrite Hcell. rewrite decide_True; [done | by rewrite El].
    + (* another stone: its liberties of before are still there *)
      assert (Hcb : cell b p <> color.Empty).
      { rewrite Hcellt, decide_False in Hcpt by done. done. }
      destruct (Halive p Hp Hcb) as (r & q & Hg & Hadj & Hr & Hcr).
      pose proof (group_tentative b m p q Hwf Hpt Hc Hcb Hg) as Hgt.
      destruct (decide (r = pt)) as [->|Hrp].
      * exfalso. apply Hpl. rewrite El.
        pose proof (group_inb b p q Hp Hg) as Hqb.
        assert (Hqb1 : inb t q = true) by by rewrite Hinb1.
        apply (captures_elem b m p Hwf Hpt). exists q.
        split_and!; [by apply adjacent_sym | done |].
        apply (analysis_group t q p Hwf1 Hqb1). split_and!.
        -- rewrite (group_color t p q Hgt). done.
        -- intros Hl. apply Hno. by apply (has_liberty_group t p q).
        -- by apply group_sym.
      * exfalso. apply Hno. exists r, q. split_and!; try done.
        -- by rewrite Hinb1.
        -- by rewrite Hcellt, decide_False.
Qed.

Lemma alive_empty (b : Board) :
  (forall p, cell b p = color.Empty) -> alive b.
Proof. intros H p _ Hc. by rewrite H in Hc. Qed.

Lemma play_alive (ms : list Move) :
  forall b b' : Board,
    wf b -> alive b -> play b ms = Done b' ->
    wf b' /\ height b' = height b /\ alive b'.
Proof.
  induction ms as [|m ms IH]; intros b b' Hwf Halive Hplay.
  - injection Hplay as <-. done.
  - destruct (PlaceStone_total b m Hwf) as (b1 & l & e & HP & Hwf1 & Hh1 & _).
    cbn [play] in Hplay. rewrite HP, bind_Done in Hplay.
    destruct (IH b1 b' Hwf1) as (Hwf' & Hh' & Halive');
      [by apply (PlaceStone_alive b b1 m l e) | done |].
    split_and!; [done | congruence | done].
Qed.

Lemma reachable_inv (size : Z) (b : Board) :
  1 <= size <= max_int -> reachable size b ->
  wf b /\ height b = Z.to_nat size /\ alive b.
Proof.
  intros Hsize (b0 & ms & Hnew & Hplay).
  rewrite (NewBoard_spec size Hsize) in Hnew. injection Hnew as <-.
  destruct (NewBoard_inv size Hsize) as [(Hwf0 & Hh0 & _) Hempty].
  destruct (play_alive ms _ b Hwf0 (alive_empty _ Hempty) Hplay)
    as (Hwf & Hh & Halive).
  split_and!; [done | congruence | done].
Qed.

(** X5. A call never leaves a group without a liberty on the board: if
    every stone of the board belongs to a group with a liberty before the
    call, so does every stone of the board the call leaves, whether the
    call is accepted or rejected. *)
Theorem X5_call_leaves_no_dead_group
    (b b' : Board) (m : Move) (l : list Point) (e : option error) :
  wf b ->
  (forall p, inb b p = true -> cell b p <> color.Empty -> has_liberty b p) ->
  PlaceStone b m = Done (b', l, e) ->
  forall p, inb b' p = true -> cell b' p <> color.Empty -> has_liberty b' p.
Proof. intros Hwf Halive HP. by apply (PlaceStone_alive b b' m l e). Qed.

Lemma X5_witness :
  PlaceStone ko4 (stone color.Black 0 3)
  = Done (tentative ko4 (stone color.Black 0 3), [], None) /\
  forall p, inb (tentative ko4 (stone color.Black 0 3)) p = true ->
            cell (tentative ko4 (stone color.Black 0 3)) p <> color.Empty ->
            has_liberty (tentative ko4 (stone color.Black 0 3)) p.
Proof.
  split; [by vm_compute|].
  apply (X5_call_leaves_no_dead_group ko4 _ (stone color.Black 0 3) [] None).
  - concrete_wf.
  - assert (Hr : reachable 4 ko4).
    { exists (mkBoard (replicate 4 (replicate 4 color.Empty)) None),
        [ stone color.Black 1 0; stone color.White 2 0;
          stone color.Black 0 1; stone color.White 3 1;
          stone color.Black 1 2; stone color.White 2 2;
          stone color.Black 2 1; stone color.White 1 1 ].
      split; by vm_compute. }
    by apply (reachable_inv 4 ko4).
  - by vm_compute.
Defined.

(** X6. On a board built by [NewBoard size], [size >= 1], after any
    sequence of [PlaceStone] calls every stone on the board belongs to a
    group with a liberty; in particular the board is never full. *)
Theorem X6_reachable_board_has_no_dead_group (size : Z) (b : Board) :
  1 <= size <= max_int -> reachable size b ->
  (forall p, inb b p = true -> cell b p <> color.Empty -> has_liberty b p) /\
  exists p, inb b p = true /\ cell b p = color.Empty.
Proof.
  intros Hsize Hr.
  destruct (reachable_inv size b Hsize Hr) as (Hwf & Hh & Halive).
  split; [done|].
  set (p0 := point.New 0 0).
  assert (Hp0 : inb b p0 = true) by (apply inb_spec; simpl; lia).
  destruct (decide (cell b p0 = color.Empty)) as [?|Hc]; [by exists p0|].
  destruct (Halive p0 Hp0 Hc) as (r & q & _ & _ & Hr' & Hcr). by exists r.
Qed.

Lemma X6_witness :
  (forall p, inb crowded3 p = true -> cell crowded3 p <> color.Empty ->
             has_liberty crowded3 p) /\
  exists p, inb crowded3 p = true /\ cell crowded3 p = color.Empty.
Proof.
  apply (X6_reachable_board_has_no_dead_group 3 crowded3).
  - by vm_compute.
  - exists empty3, crowded3_moves. split; by vm_compute.
Defined.

(** X7. On the 1 x 1 board no stone ever stays: after any sequence of
    [PlaceStone] calls the single cell is Empty. *)
Theorem X7_board_of_size_1_stays_empty (b : Board) :
  reachable 1 b -> board b = [[color.Empty]].
Proof.
  intros Hr.
  assert (Hsize : 1 <= 1 <= max_int) by by vm_compute.
  destruct (reachable_inv 1 b Hsize Hr) as (Hwf & Hh & Halive).
  change (Z.to_nat 1) with 1%nat in Hh.
  set (p0 := point.New 0 0).
  assert (Hp0 : inb b p0 = true) by (apply inb_spec; simpl; lia).
  assert (Hc : cell b p0 = color.Empty).
  { destruct (decide (cell b p0 = color.Empty)) as [?|Hc]; [done|].
    destruct (Halive p0 Hp0 Hc) as (r & q & Hg & Hadj & Hr' & Hcr).
    pose proof (group_inb b p0 q Hp0 Hg) as Hq.
    apply inb_spec in Hr', Hq. unfold adjacent in Hadj. lia. }
  destruct (cell_wf b p0 Hwf Hp0) as (row & Hrow & Hcell).
  pose proof (wf_row b _ row Hwf Hrow) as Hlen.
  unfold height in Hh, Hlen. rewrite Hh in Hlen. rewrite Hc in Hcell. simpl in *.
  destruct (board b) as [|row' [|? ?]]; simplify_eq/=.
  destruct row as [|c [|? ?]]; by simplify_eq/=.
Qed.

Lemma X7_witness :
  board (mkBoard [[color.Empty]] None) = [[color.Empty]].
Proof.
  apply X7_board_of_size_1_stays_empty.
  exists (mkBoard [[color.Empty]] None),
    [stone color.Black 0 0; stone color.White 0 0; stone color.Black 3 0].
  split; by vm_compute.
Defined.

(** ** The snapshot *)

Lemma row_major_elem (b : Board) (p : Point) :
  p ∈ row_major b <-> inb b p = true.
Proof.
  unfold row_major. rewrite list_elem_of_bind, inb_spec. split.
  - intros (i & Hp & Hi). apply list_elem_of_fmap in Hp as (j & -> & Hj).
    apply elem_of_seq in Hi, Hj. simpl. lia.
  - intros [Hx Hy]. exists (Z.to_nat (point.Y p)). split.
    + apply list_elem_of_fmap. exists (Z.to_nat (point.X p)). split.
      * destruct p as [x y]. simpl in *. f_equal; lia.
      * apply elem_of_seq. lia.
    + apply elem_of_seq. lia.
Qed.

Lemma row_major_NoDup (b : Board) : NoDup (row_major b).
Proof.
  unfold row_major. apply NoDup_bind.
  - intros i1 i2 p _ _ H1 H2.
    apply list_elem_of_fmap in H1 as (j1 & -> & _).
    apply list_elem_of_fmap in H2 as (j2 & [= _ ?] & _). lia.
  - intros i _. apply NoDup_fmap_2_strong; [|apply NoDup_seq].
    intros j1 j2 _ _ [= ?]. lia.
  - apply NoDup_seq.
Qed.

Lemma stones_part_app (b : Board) (l1 l2 : list Point) :
  (fun p => move.NewMove (cell b p) p)
    <$> filter (fun p => cell b p <> color.Empty) (l1 ++ l2)
  = ((fun p => move.NewMove (cell b p) p)
       <$> filter (fun p => cell b p <> color.Empty) l1)
    ++ ((fun p => move.NewMove (cell b p) p)
          <$> filter (fun p => cell b p <> color.Empty) l2).
Proof. by rewrite list.filter_app, fmap_app. Qed.

Lemma GetFullBoardState_cols_wf (b : Board) (i : nat) (js : list nat) :
  wf b -> (i < height b)%nat -> Forall (fun j => (j < height b)%nat) js ->
  forall moves,
    GetFullBoardState_cols b i js moves =
    Done (moves ++
          ((fun p => move.NewMove (cell b p) p)
             <$> filter (fun p => cell b p <> color.Empty)
                   ((fun j => point.New (Z.of_nat j) (Z.of_nat i)) <$> js))).
Proof.
  intros Hwf Hi. induction js as [|j js IH]; intros Hjs moves.
  - simpl. by rewrite app_nil_r.
  - inversion Hjs as [|? ? Hj Hjs']; subst.
    set (p := point.New (Z.of_nat j) (Z.of_nat i)).
    assert (Hp : inb b p = true) by (apply inb_spec; simpl; lia).
    destruct (cell_wf b p Hwf Hp) as (row & Hrow & Hc).
    assert (Hir : index (board b) (Z.of_nat i) = Done row)
      by (apply index_Done; split; [lia | done]).
    assert (Hic : index row (Z.of_nat j) = Done (cell b p))
      by (apply index_Done; split; [lia | done]).
    cbn [GetFullBoardState_cols]. rewrite Hir, bind_Done, Hic, bind_Done.
    rewrite fmap_cons. fold p.
    destruct (decide (cell b p <> color.Empty)) as [Hne|He].
    + rewrite ?Hir, ?bind_Done, ?Hic, ?bind_Done, (IH Hjs').
      rewrite filter_cons_True by done. rewrite fmap_cons.
      by rewrite <- app_assoc.
    + rewrite (IH Hjs'). by rewrite filter_cons_False.
Qed.

Lemma GetFullBoardState_rows_wf (b : Board) (idx : list nat) :
  wf b -> Forall (fun i => (i < height b)%nat) idx ->
  forall moves,
    GetFullBoardState_rows b idx moves =
    Done (moves ++
          ((fun p => move.NewMove (cell b p) p)
             <$> filter (fun p => cell b p <> color.Empty)
                   (idx ≫= fun i =>
                      (fun j => point.New (Z.of_nat j) (Z.of_nat i))
                        <$> seq 0 (height b)))).
Proof.
  intros Hwf. induction idx as [|i idx IH]; intros Hidx moves.
  - simpl. by rewrite app_nil_r.
  - inversion Hidx as [|? ? Hi Hidx']; subst.
    pose proof (wf_width b Hwf) as Hw. unfold width in Hw.
    assert (H0 : index (board b) 0 = Done (hd [] (board b))).
    { destruct Hwf as (Hh & _). unfold height in Hh.
      destruct (board b); simpl in *; [lia | done]. }
    cbn [GetFullBoardState_rows]. rewrite H0, bind_Done, Hw.
    rewrite (GetFullBoardState_cols_wf b i _ Hwf Hi), bind_Done.
    + rewrite (IH Hidx'). rewrite bind_cons, stones_part_app.
      by rewrite <- app_assoc.
    + apply Forall_forall. intros j Hj. apply in_seq in Hj. lia.
Qed.

Lemma GetFullBoardState_wf (b : Board) :
  wf b -> GetFullBoardState b = Done (stones b).
Proof.
  intros Hwf. unfold GetFullBoardState.
  rewrite (GetFullBoardState_rows_wf b _ Hwf); [done|].
  apply Forall_forall. intros i Hi. apply in_seq in Hi.
  unfold height. lia.
Qed.

Lemma stones_elem (b : Board) (c : Color) (p : Point) :
  move.NewMove c p ∈ stones b <->
  inb b p = true /\ cell b p = c /\ c <> color.Empty.
Proof.
  unfold stones. rewrite list_elem_of_fmap. split.
  - intros (q & [= -> ->] & Hq). apply list_elem_of_filter in Hq as [Hc Hq].
    by apply row_major_elem in Hq.
  - intros (Hp & <- & Hc). exists p. split; [done|].
    apply list_elem_of_filter. split; [done | by apply row_major_elem].
Qed.

Lemma seq_StronglySorted (j n : nat) : StronglySorted lt (seq j n).
Proof.
  revert j. induction n as [|n IH]; intros j; [constructor|].
  cbn [seq]. constructor; [apply IH|].
  apply Forall_forall. intros k Hk. apply in_seq in Hk. lia.
Qed.

Lemma app_StronglySorted {A : Type} (R : relation A) (l1 l2 : list A) :
  (forall x1 x2, x1 ∈ l1 -> x2 ∈ l2 -> R x1 x2) ->
  StronglySorted R l1 -> StronglySorted R l2 -> StronglySorted R (l1 ++ l2).
Proof.
  intros HR H1 H2. induction H1 as [|x l1 H1 IH Hx]; [done|].
  simpl. constructor.
  - apply IH. intros x1 x2 Hx1 Hx2. apply HR; [by right | done].
  - apply Forall_app. split; [done|].
    apply Forall_forall. intros y Hy. apply HR; [by left|].
    by apply list_elem_of_In.
Qed.

Lemma fmap_StronglySorted {A B : Type} (f : A -> B) (R1 : relation A)
    (R2 : relation B) (l : list A) :
  (forall x y, R1 x y -> R2 (f x) (f y)) ->
  StronglySorted R1 l -> StronglySorted R2 (f <$> l).
Proof.
  intros Hf. induction 1 as [|x l Hl IH Hx]; [constructor|].
  rewrite fmap_cons. constructor; [done|].
  apply Forall_fmap. eapply List.Forall_impl; [|exact Hx].
  intros y Hy. by apply Hf.
Qed.

Lemma bind_StronglySorted {A B : Type} (R1 : relation A) (R : relation B)
    (f : A -> list B) (l : list A) :
  StronglySorted R1 l ->
  (forall x, x ∈ l -> StronglySorted R (f x)) ->
  (forall x y a c, R1 x y -> a ∈ f x -> c ∈ f y -> R a c) ->
  StronglySorted R (l ≫= f).
Proof.
  intros Hl Hf HR. induction Hl as [|x l Hl IH Hx]; [constructor|].
  rewrite bind_cons. apply app_StronglySorted.
  - intros a c Ha Hc. apply list_elem_of_bind in Hc as (y & Hc & Hy).
    apply (HR x y); [|done | done].
    rewrite Forall_forall in Hx. by apply Hx, list_elem_of_In.
  - apply Hf. by left.
  - apply IH. intros y Hy. apply Hf. by right.
Qed.

Lemma filter_StronglySorted {A : Type} (R : relation A) (P : A -> Prop)
    `{forall x, Decision (P x)} (l : list A) :
  StronglySorted R l -> StronglySorted R (filter P l).
Proof.
  induction 1 as [|x l Hl IH Hx]; [constructor|].
  destruct (decide (P x)) as [HP|HP].
  - rewrite filter_cons_True by done. constructor; [done|].
    apply Forall_forall. intros y Hy.
    apply list_elem_of_In, list_elem_of_filter in Hy as [_ Hy].
    rewrite Forall_forall in Hx. by apply Hx, list_elem_of_In.
  - by rewrite filter_cons_False.
Qed.

Lemma row_major_sorted (b : Board) : StronglySorted row_major_lt (row_major b).
Proof.
  unfold row_major. apply (bind_StronglySorted lt).
  - apply seq_StronglySorted.
  - intros i _. apply (fmap_StronglySorted _ lt); [|apply seq_StronglySorted].
    intros j1 j2 Hj. right. simpl. lia.
  - intros i1 i2 p q Hi Hp Hq.
    apply list_elem_of_fmap in Hp as (j1 & -> & _).
    apply list_elem_of_fmap in Hq as (j2 & -> & _). left. simpl. lia.
Qed.

Lemma stones_sorted (b : Board) :
  StronglySorted (fun m1 m2 => row_major_lt (move.Point m1) (move.Point m2))
                 (stones b).
Proof.
  unfold stones. apply (fmap_StronglySorted _ row_major_lt); [done|].
  apply filter_StronglySorted, row_major_sorted.
Qed.

(** X8. On a well-formed board [GetFullBoardState] returns the non-Empty
    cells of the grid and nothing else: the move (c, p) is in the result
    exactly when [p] is a point of the grid whose cell holds [c] and [c] is
    not Empty.  The result is the list of the points of the grid in
    row-major order, restricted to the occupied ones, each with its
    colour. *)
Theorem X8_snapshot_lists_the_stones (b : Board) :
  wf b ->
  exists moves, GetFullBoardState b = Done moves /\
    moves = (fun p => move.NewMove (cell b p) p)
              <$> filter (fun p => cell b p <> color.Empty) (row_major b) /\
    forall c p, move.NewMove c p ∈ moves <->
                inb b p = true /\ cell b p = c /\ c <> color.Empty.
Proof.
  intros Hwf. exists (stones b).
  split_and!; [by apply GetFullBoardState_wf | done | apply stones_elem].
Qed.

Lemma X8_witness :
  exists moves, GetFullBoardState crowded3 = Done moves /\
    moves = (fun p => move.NewMove (cell crowded3 p) p)
              <$> filter (fun p => cell crowded3 p <> color.Empty)
                    (row_major crowded3) /\
    forall c p, move.NewMove c p ∈ moves <->
                inb crowded3 p = true /\ cell crowded3 p = c /\
                c <> color.Empty.
Proof. apply (X8_snapshot_lists_the_stones crowded3). concrete_wf. Defined.

(** X9. The snapshot is in row-major order, rows from the top and each
    row from the left, with x the column and y the row: of two moves of
    the result, the earlier one has the smaller y, or the same y and the
    smaller x.  So no point occurs twice. *)
Theorem X9_snapshot_is_row_major (b : Board) :
  wf b ->
  exists moves, GetFullBoardState b = Done moves /\
    StronglySorted
      (fun m1 m2 => row_major_lt (move.Point m1) (move.Point m2)) moves /\
    NoDup (move.Point <$> moves).
Proof.
  intros Hwf. exists (stones b). split; [by apply GetFullBoardState_wf|].
  split; [apply stones_sorted|].
  assert (E : move.Point <$> stones b
              = filter (fun p => cell b p <> color.Empty) (row_major b)).
  { unfold stones. rewrite <- list_fmap_compose.
    rewrite <- (list_fmap_id (filter _ _)) at 2. by apply list_fmap_ext. }
  rewrite E. apply list.NoDup_filter, row_major_NoDup.
Qed.

Lemma X9_witness :
  exists moves, GetFullBoardState crowded3 = Done moves /\
    StronglySorted
      (fun m1 m2 => row_major_lt (move.Point m1) (move.Point m2)) moves /\
    NoDup (move.Point <$> moves).
Proof. apply (X9_snapshot_is_row_major crowded3). concrete_wf. Defined.

Lemma stones_same_grid (b1 b2 : Board) :
  board b1 = board b2 -> stones b1 = stones b2.
Proof.
  intros Hb. unfold stones, row_major, height, cell, colorAt. by rewrite Hb.
Qed.

Lemma stones_determine_grid (b1 b2 : Board) :
  wf b1 -> wf b2 -> height b1 = height b2 -> stones b1 = stones b2 ->
  board b1 = board b2.
Proof.
  intros Hwf1 Hwf2 Hh Hs. apply (grid_ext b1 b2 Hwf1 Hwf2 Hh).
  intros p Hp.
  assert (Hp2 : inb b2 p = true) by by rewrite (inb_same_height b1).
  destruct (decide (cell b1 p = color.Empty)) as [He|Hne].
  - destruct (decide (cell b2 p = color.Empty)) as [?|Hne2]; [congruence|].
    assert (H : move.NewMove (cell b2 p) p ∈ stones b1)
      by (rewrite Hs; by apply stones_elem).
    apply stones_elem in H as (_ & ? & _). done.
  - assert (H : move.NewMove (cell b1 p) p ∈ stones b2)
      by (rewrite <- Hs; by apply stones_elem).
    apply stones_elem in H as (_ & ? & _). done.
Qed.

(** X10. The snapshot determines the grid: two well-formed boards of the
    same side with the same [GetFullBoardState] have the same grid. *)
Theorem X10_snapshot_determines_grid (b1 b2 : Board) :
  wf b1 -> wf b2 -> height b1 = height b2 ->
  GetFullBoardState b1 = GetFullBoardState b2 ->
  board b1 = board b2.
Proof.
  intros Hwf1 Hwf2 Hh Hs.
  rewrite (GetFullBoardState_wf b1 Hwf1), (GetFullBoardState_wf b2 Hwf2) in Hs.
  injection Hs as Hs. by apply stones_determine_grid.
Qed.

Lemma X10_witness :
  board ko4 = board (mkBoard (board ko4) None).
Proof.
  apply (X10_snapshot_determines_grid ko4 (mkBoard (board ko4) None)).
  - concrete_wf.
  - concrete_wf.
  - reflexivity.
  - by vm_compute.
Defined.

(** X11. [GetFullBoardState] after a [PlaceStone] call.  After a rejected
    call the snapshot is the snapshot of before.  After an accepted call
    it lists no returned (captured) point, lists the placed point with
    the colour of the move when that colour is not Empty, and lists every
    other point exactly as before. *)
Theorem X11_snapshot_after_call
    (b b' : Board) (m : Move) (l : list Point) (e : option error) :
  wf b -> PlaceStone b m = Done (b', l, e) ->
  exists before after,
    GetFullBoardState b = Done before /\
    GetFullBoardState b' = Done after /\
    match e with
    | Some _ => after = before
    | None =>
        forall c p, move.NewMove c p ∈ after <->
                    (p ∉ l) /\
                    if decide (p = move.Point m)
                    then c = move.Color m /\ c <> color.Empty
                    else move.NewMove c p ∈ before
    end.
Proof.
  intros Hwf HP.
  destruct (PlaceStone_total b m Hwf) as (b1 & l1 & e1 & HP1 & Hwf' & Hh' & _).
  rewrite HP in HP1. injection HP1 as <- <- <-.
  exists (stones b), (stones b').
  split_and!; [by apply GetFullBoardState_wf | by apply GetFullBoardState_wf |].
  destruct e as [e|].
  - destruct (PlaceStone_rejected_grid b b' m l e Hwf HP) as (_ & Hb).
    by apply stones_same_grid.
  - destruct (PlaceStone_success_grid b b' m l Hwf HP)
      as (_ & _ & _ & Hin & Hcell).
    destruct (PlaceStone_success b b' m l Hwf HP) as (Hpt & _).
    intros c p. rewrite !stones_elem, Hcell, (inb_same_height b b') by done.
    destruct (decide (p ∈ l)) as [Hpl|Hpl].
    { split; [by intros (_ & <- & ?) | by intros [? _]]. }
    destruct (decide (p = move.Point m)) as [->|Hne].
    + split; [by intros (_ & <- & ?) | by intros (_ & -> & ?)].
    + rewrite stones_elem. split; [intros ?; by split | by intros [_ ?]].
Qed.

Lemma X11_witness :
  exists before after,
    GetFullBoardState atari3 = Done before /\
    GetFullBoardState (committed atari3 (stone color.Black 1 2)) = Done after /\
    forall c p, move.NewMove c p ∈ after <->
                (p ∉ [point.New 1 1]) /\
                if decide (p = point.New 1 2)
                then c = color.Black /\ c <> color.Empty
                else move.NewMove c p ∈ before.
Proof.
  apply (X11_snapshot_after_call atari3
           (committed atari3 (stone color.Black 1 2))
           (stone color.Black 1 2) [point.New 1 1] None).
  - concrete_wf.
  - by vm_compute.
Defined.

(** ** Degenerate sizes *)

(** X12. [NewBoard] with a negative size panics in [make].  With size 0
    it returns a board without rows: on that board [GetFullBoardState]
    returns the empty list, and every [PlaceStone] call panics with an
    index out of range, because the bounds check reads [b.board[0]]. *)
Theorem X12_degenerate_sizes :
  (forall size, size < 0 -> NewBoard size = Panic MakeSliceLen) /\
  NewBoard 0 = Done (mkBoard [] None) /\
  (forall k, GetFullBoardState (mkBoard [] k) = Done []) /\
  (forall k m, PlaceStone (mkBoard [] k) m = Panic IndexOutOfRange) /\
  (forall k p, inBounds (mkBoard [] k) p = Panic IndexOutOfRange).
Proof.
  split_and!; try done.
  intros size Hsize. unfold NewBoard, make.
  rewrite decide_False by lia. done.
Qed.

(** ** The grid store *)

Lemma colorAt_outside (b : Board) (p : Point) :
  wf b -> inb b p = false -> colorAt b p = Panic IndexOutOfRange.
Proof.
  intros Hwf Hp. unfold colorAt, index.
  destruct (decide (0 <= point.Y p)) as [Hy|Hy]; [|done].
  destruct (board b !! Z.to_nat (point.Y p)) as [row|] eqn:Hrow; [|done].
  rewrite bind_Done.
  destruct (decide (0 <= point.X p)) as [Hx|Hx]; [|done].
  destruct (row !! Z.to_nat (point.X p)) as [c|] eqn:Hc; [|done].
  pose proof (wf_row b _ row Hwf Hrow) as Hlen.
  apply lookup_lt_Some in Hrow, Hc.
  assert (inb b p = true); [|congruence].
  apply inb_spec. unfold height in *. lia.
Qed.

Lemma setColor_outside (b : Board) (m : Move) :
  wf b -> inb b (move.Point m) = false -> setColor b m = Panic IndexOutOfRange.
Proof.
  intros Hwf Hp. pose proof (colorAt_outside b _ Hwf Hp) as H.
  unfold setColor, colorAt in *.
  destruct (index (board b) (point.Y (move.Point m))) as [row| |];
    [|cbn in H; by injection H as -> | by cbn in H].
  rewrite bind_Done in H. rewrite bind_Done. by rewrite H.
Qed.

(** X13. Writing and reading a cell.  On a point of the grid [setColor]
    returns a board on which [colorAt] reads the colour written at that
    point and what it read before at every other point (a panic off the
    grid), the ko field being untouched.  Off the grid both [setColor]
    and [colorAt] panic with an index out of range: neither checks
    bounds. *)
Theorem X13_setColor_then_colorAt (b : Board) (p : Point) (c : Color) :
  wf b ->
  (inb b p = true ->
   exists b', setColor b (move.NewMove c p) = Done b' /\
              colorAt b' p = Done c /\
              (forall q, q <> p -> colorAt b' q = colorAt b q) /\
              ko b' = ko b /\ wf b') /\
  (inb b p = false ->
   setColor b (move.NewMove c p) = Panic IndexOutOfRange /\
   colorAt b p = Panic IndexOutOfRange).
Proof.
  intros Hwf. split; intros Hp.
  - destruct (setColor_wf b p c Hwf Hp)
      as (b' & Hset & Hwf' & Hh' & Hko' & Hcp & Hcq).
    exists b'. split_and!; try done.
    + rewrite (colorAt_wf b' p Hwf'); [by rewrite Hcp|].
      by rewrite (inb_same_height b).
    + intros q Hq. destruct (inb b q) eqn:Hqb.
      * rewrite (colorAt_wf b q Hwf Hqb), (colorAt_wf b' q Hwf');
          [by rewrite Hcq | by rewrite (inb_same_height b)].
      * rewrite (colorAt_outside b q Hwf Hqb).
        apply colorAt_outside; [done | by rewrite (inb_same_height b)].
  - split; [by apply setColor_outside | by apply colorAt_outside].
Qed.

Lemma X13_witness :
  (inb crowded3 (point.New 1 0) = true ->
   exists b', setColor crowded3 (move.NewMove color.White (point.New 1 0))
              = Done b' /\
              colorAt b' (point.New 1 0) = Done color.White /\
              (forall q, q <> point.New 1 0 ->
                         colorAt b' q = colorAt crowded3 q) /\
              ko b' = ko crowded3 /\ wf b') /\
  (inb crowded3 (point.New 1 0) = false ->
   setColor crowded3 (move.NewMove color.White (point.New 1 0))
   = Panic IndexOutOfRange /\
   colorAt crowded3 (point.New 1 0) = Panic IndexOutOfRange).
Proof.
  apply (X13_setColor_then_colorAt crowded3 (point.New 1 0) color.White).
  concrete_wf.
Defined.

(** X14. Removing captured stones does not depend on the order of the
    list nor on repetitions in it: two lists of points of the grid with
    the same elements give the same board. *)
Theorem X14_removal_ignores_order_and_repetition
    (b : Board) (l1 l2 : list Point) :
  wf b -> Forall (fun p => inb b p = true) l1 ->
  (forall p, p ∈ l1 <-> p ∈ l2) ->
  exists b', removeCapturedStones b l1 = Done b' /\
             removeCapturedStones b l2 = Done b' /\
             forall q, cell b' q = if decide (q ∈ l1) then color.Empty
                                   else cell b q.
Proof.
  intros Hwf Hl1 Hsame.
  assert (Hl2 : Forall (fun p => inb b p = true) l2).
  { rewrite Forall_forall in Hl1. apply Forall_forall. intros p Hp.
    apply Hl1, list_elem_of_In, Hsame, list_elem_of_In, Hp. }
  destruct (removeCapturedStones_wf l1 b Hwf Hl1)
    as (b1 & Hr1 & Hwf1 & Hh1 & Hko1 & Hc1).
  destruct (removeCapturedStones_wf l2 b Hwf Hl2)
    as (b2 & Hr2 & Hwf2 & Hh2 & Hko2 & Hc2).
  exists b1. split_and!; [done | | done].
  rewrite Hr2. f_equal.
  assert (Hb : board b2 = board b1).
  { apply (grid_ext b2 b1 Hwf2 Hwf1); [congruence|].
    intros q _. rewrite Hc1, Hc2.
    destruct (decide (q ∈ l1)) as [H1|H1], (decide (q ∈ l2)) as [H2|H2];
      try done.
    - by apply Hsame in H1.
    - by apply Hsame in H2. }
  destruct b1, b2. simpl in *. congruence.
Qed.

Lemma X14_witness :
  exists b',
    removeCapturedStones crowded3 [point.New 0 0; point.New 1 2] = Done b' /\
    removeCapturedStones crowded3
      [point.New 1 2; point.New 0 0; point.New 1 2] = Done b' /\
    forall q, cell b' q = if decide (q ∈ [point.New 0 0; point.New 1 2])
                          then color.Empty else cell crowded3 q.
Proof.
  apply (X14_removal_ignores_order_and_repetition crowded3).
  - concrete_wf.
  - by repeat constructor.
  - intros p. rewrite !elem_of_cons, !elem_of_nil. tauto.
Defined.

(** ** Moves of colour Empty, accepted moves, analyzer preconditions *)

(** X15. [PlaceStone] does not check the colour of the move.  A move of
    colour Empty on an Empty point of the grid is accepted: it captures
    nothing, changes no cell and leaves the ko unset. *)
Theorem X15_move_of_colour_Empty (b : Board) (pt : Point) :
  wf b -> inb b pt = true -> cell b pt = color.Empty ->
  PlaceStone b (move.NewMove color.Empty pt) = Done (set_ko b None, [], None).
Proof.
  intros Hwf Hp Hc. set (m := move.NewMove color.Empty pt).
  change pt with (move.Point m) in Hp, Hc.
  destruct (tentative_spec b m Hwf Hp) as (_ & Hwf1 & Hh1 & _).
  assert (Hpt : cell (tentative b m) pt = color.Empty).
  { rewrite (tentative_cell b m pt Hwf Hp). by rewrite decide_True. }
  assert (Hp1 : inb (tentative b m) pt = true) by by rewrite (inb_same_height b).
  assert (Hcap : captures b m = []).
  { apply elem_of_nil_inv. intros q Hq.
    apply (captures_elem b m q Hwf Hp) in Hq as (n & Hadj & Hnb & Hq).
    apply analysis_group in Hq as (_ & Hno & _);
      [|done | by rewrite (inb_same_height b)].
    apply Hno. exists pt, n.
    split_and!; [constructor | by apply adjacent_sym | done | done]. }
  assert (Hown : analysis (tentative b m) pt = []).
  { destruct (decide (analysis (tentative b m) pt = [])) as [?|Hne]; [done|].
    apply analysis_nonempty in Hne as [? _]; done. }
  rewrite (PlaceStone_empty b m Hwf Hp Hc).
  rewrite decide_False by (intros [_ ?]; done). rewrite Hcap.
  destruct (committed_spec b m Hwf Hp) as (_ & Hwf' & Hh' & Hko' & Hcell').
  unfold new_ko in Hko'. rewrite Hcap in Hko'.
  assert (Hb : board (committed b m) = board b).
  { apply (grid_ext _ b Hwf' Hwf Hh'). intros q _.
    rewrite Hcell', Hcap, decide_False by apply not_elem_of_nil.
    rewrite (tentative_cell b m q Hwf Hp).
    destruct (decide (q = move.Point m)) as [->|_]; [by rewrite Hc | done]. }
  do 3 f_equal. destruct (committed b m). simpl in *. unfold set_ko. congruence.
Qed.

Lemma X15_witness :
  PlaceStone crowded3 (move.NewMove color.Empty (point.New 1 0))
  = Done (set_ko crowded3 None, [], None).
Proof.
  apply (X15_move_of_colour_Empty crowded3 (point.New 1 0)).
  - concrete_wf.
  - reflexivity.
  - reflexivity.
Defined.

(** X16. What an accepted call does.  The move was on an Empty point of
    the grid.  Every returned point is a point of the grid that held a
    stone once the move was placed (a stone of before the call or the
    placed stone itself), and is Empty at return; every other cell is as
    before the call, except the placed point, which holds the colour of
    the move.  The ko field is the placed point if exactly one stone is
    returned, and unset otherwise. *)
Theorem X16_accepted_call_effect
    (b b' : Board) (m : Move) (l : list Point) :
  wf b -> PlaceStone b m = Done (b', l, None) ->
  inb b (move.Point m) = true /\ cell b (move.Point m) = color.Empty /\
  height b' = height b /\
  (forall q, q ∈ l ->
     inb b q = true /\ cell b' q = color.Empty /\
     if decide (q = move.Point m) then move.Color m <> color.Empty
     else cell b q <> color.Empty) /\
  (forall q, q ∉ l ->
     cell b' q = if decide (q = move.Point m) then move.Color m
                 else cell b q) /\
  ko b' = match l with [_] => Some (move.Point m) | _ => None end.
Proof.
  intros Hwf HP.
  destruct (PlaceStone_success_grid b b' m l Hwf HP)
    as (_ & Hh & Hko & _ & Hcell).
  destruct (PlaceStone_success b b' m l Hwf HP) as (Hp & Hc & -> & _).
  split_and!; try done.
  - intros q Hq. destruct (captures_inb b m q Hwf Hp Hq) as [Hqb Hqc].
    rewrite (tentative_cell b m q Hwf Hp) in Hqc.
    split_and!; [done | by rewrite Hcell, decide_True |].
    by destruct (decide (q = move.Point m)).
  - intros q Hq. by rewrite Hcell, decide_False.
Qed.

Lemma X16_witness :
  let b := atari3 in
  let m := stone color.Black 1 2 in
  let b' := committed atari3 (stone color.Black 1 2) in
  let l := [point.New 1 1] in
  inb b (move.Point m) = true /\ cell b (move.Point m) = color.Empty /\
  height b' = height b /\
  (forall q, q ∈ l ->
     inb b q = true /\ cell b' q = color.Empty /\
     if decide (q = move.Point m) then move.Color m <> color.Empty
     else cell b q <> color.Empty) /\
  (forall q, q ∉ l ->
     cell b' q = if decide (q = move.Point m) then move.Color m
                 else cell b q) /\
  ko b' = match l with [_] => Some (move.Point m) | _ => None end.
Proof.
  intros b m b' l.
  apply (X16_accepted_call_effect b b' m l).
  - concrete_wf.
  - by vm_compute.
Defined.

(** X17. The analyzer called outside its domain.  [capturedStones] reads
    the colour of its starting point before any bounds check: started
    off the grid it panics with an index out of range.  Started on an
    Empty point of the grid it returns [nil]. *)
Theorem X17_analyzer_off_grid_and_on_Empty (b : Board) (p : Point) :
  wf b ->
  (inb b p = false -> capturedStones b p = Panic IndexOutOfRange) /\
  (inb b p = true -> cell b p = color.Empty -> capturedStones b p = Done []).
Proof.
  intros Hwf. split.
  - intros Hp. unfold capturedStones. by rewrite (colorAt_outside b p Hwf Hp).
  - by apply capturedStones_empty.
Qed.

Lemma X17_witness :
  (inb crowded3 (point.New 3 0) = false ->
   capturedStones crowded3 (point.New 3 0) = Panic IndexOutOfRange) /\
  (inb crowded3 (point.New 3 0) = true ->
   cell crowded3 (point.New 3 0) = color.Empty ->
   capturedStones crowded3 (point.New 3 0) = Done []).
Proof.
  apply (X17_analyzer_off_grid_and_on_Empty crowded3 (point.New 3 0)).
  concrete_wf.
Defined.

(** ** Neighbours over all of [int64] *)

Lemma wrap64_spec (z : Z) :
  is_int64 (wrap64 z) /\ exists k, wrap64 z = z + 2 ^ 64 * k.
Proof.
  unfold wrap64, is_int64.
  pose proof (Z.mod_pos_bound (z + 2 ^ 63) (2 ^ 64)) as Hb.
  pose proof (Z.div_mod (z + 2 ^ 63) (2 ^ 64)) as Hd.
  split; [lia|]. exists (- ((z + 2 ^ 63) / 2 ^ 64)). lia.
Qed.

(** X18. [getNeighbors] on any point with [int64] coordinates, the ends
    of the range included: it returns four distinct points with [int64]
    coordinates, none of them the point itself, and the relation is
    symmetric: [q] is a neighbour of [p] exactly when [p] is a neighbour
    of [q]. *)
Theorem X18_neighbours_of_int64_points (p : Point) :
  is_int64 (point.X p) -> is_int64 (point.Y p) ->
  length (getNeighbors p) = 4%nat /\
  NoDup (getNeighbors p) /\
  (p ∉ getNeighbors p) /\
  Forall (fun q => is_int64 (point.X q) /\ is_int64 (point.Y q))
         (getNeighbors p) /\
  forall q, is_int64 (point.X q) -> is_int64 (point.Y q) ->
            (q ∈ getNeighbors p <-> p ∈ getNeighbors q).
Proof.
  intros Hx Hy. destruct p as [x y]. simpl in Hx, Hy.
  unfold getNeighbors. cbn [point.X point.Y].
  destruct (wrap64_spec (x + 1)) as (Hx1 & kx1 & Ex1).
  destruct (wrap64_spec (x - 1)) as (Hx2 & kx2 & Ex2).
  destruct (wrap64_spec (y + 1)) as (Hy1 & ky1 & Ey1).
  destruct (wrap64_spec (y - 1)) as (Hy2 & ky2 & Ey2).
  unfold is_int64 in *.
  split; [done|]. split_and!.
  - repeat (apply NoDup_cons_2 || apply NoDup_nil_2);
      rewrite ?elem_of_cons, ?elem_of_nil;
      intros H; repeat destruct H as [H|H]; try done;
      injection H; intros; lia.
  - rewrite !elem_of_cons, elem_of_nil.
    intros H; repeat destruct H as [H|H]; try done; injection H; intros; lia.
  - repeat constructor; simpl; lia.
  - intros [x' y'] Hx' Hy'. simpl in Hx', Hy'. cbn [point.X point.Y].
    destruct (wrap64_spec (x' + 1)) as (Hx1' & kx1' & Ex1').
    destruct (wrap64_spec (x' - 1)) as (Hx2' & kx2' & Ex2').
    destruct (wrap64_spec (y' + 1)) as (Hy1' & ky1' & Ey1').
    destruct (wrap64_spec (y' - 1)) as (Hy2' & ky2' & Ey2').
    unfold is_int64 in *.
    rewrite !elem_of_cons, !elem_of_nil.
    split; intros H; repeat destruct H as [H|H]; try done;
      injection H; intros; subst.
    + right; left. f_equal. lia.
    + left. f_equal. lia.
    + do 3 right. left. f_equal. lia.
    + do 2 right. left. f_equal. lia.
    + right; left. f_equal. lia.
    + left. f_equal. lia.
    + do 3 right. left. f_equal. lia.
    + do 2 right. left. f_equal. lia.
Qed.

Lemma X18_witness :
  let p := point.New (2 ^ 63 - 1) (- 2 ^ 63) in
  length (getNeighbors p) = 4%nat /\
  NoDup (getNeighbors p) /\
  (p ∉ getNeighbors p) /\
  Forall (fun q => is_int64 (point.X q) /\ is_int64 (point.Y q))
         (getNeighbors p) /\
  forall q, is_int64 (point.X q) -> is_int64 (point.Y q) ->
            (q ∈ getNeighbors p <-> p ∈ getNeighbors q).
Proof.
  apply (X18_neighbours_of_int64_points (point.New (2 ^ 63 - 1) (- 2 ^ 63))).
  - unfold is_int64. simpl. lia.
  - unfold is_int64. simpl. lia.
Defined.
